(** * abot: utterance tokenising, place extraction and pronoun resolution

    A shallow embedding of the Go sources

    - [dt.NewMsg], [dt.GetLastRoute], [dt.SentenceFields],
      [dt.getContextObject], [dt.addContext] (package [dt]), and
    - [language.ExtractYesNo], [language.ExtractCount],
      [language.ExtractCities], [language.bigrams] (package [language]),

    together with the facts about them that the specification states.

    Conventions.  A Go [string] is a [string] of bytes; the text handled
    here is ASCII, where a rune is one byte.  A Go slice is a [list]; an
    indexed store [s[i] = v] is stdpp's [<[i:=v]> s].  A Go [(T, error)]
    result is a pair whose second component is an [option error], [None]
    being [nil].  The [*sqlx.DB] handle is a value of type [DB] holding the
    two tables, the faults of the storage layer and the log of the queries
    issued so far; every function that receives the handle runs in the
    state monad [M] over it. *)

From Stdlib Require Import ZArith NArith Ascii String List Lia.
From stdpp Require Import base list strings gmap sorting.
Import ListNotations.
Open Scope string_scope.
Open Scope list_scope.

(* ===================================================================== *)
(** ** Go's [strings] package, on ASCII text                              *)
(* ===================================================================== *)

Module strings.

(** [asciiSpace]: the white space of [strings.Fields]. *)
Definition isSpace (c : ascii) : bool :=
  match nat_of_ascii c with
  | 9 | 10 | 11 | 12 | 13 | 32 => true
  | _ => false
  end.

Definition isEmpty (s : string) : bool :=
  match s with EmptyString => true | String _ _ => false end.

(** [Fields_from cur s]: [cur] is the field being read. *)
Fixpoint Fields_from (cur : string) (s : string) : list string :=
  match s with
  | EmptyString => if isEmpty cur then [] else [cur]
  | String c s' =>
      if isSpace c
      then (if isEmpty cur then Fields_from "" s'
            else cur :: Fields_from "" s')
      else Fields_from (cur +:+ String c "") s'
  end.

(** [strings.Fields]: the maximal runs of non-space bytes, in order. *)
Definition Fields (s : string) : list string := Fields_from "" s.

Definition toLower (c : ascii) : ascii :=
  let n := nat_of_ascii c in
  if (65 <=? n)%nat && (n <=? 90)%nat then ascii_of_nat (n + 32) else c.

(** [strings.ToLower]. *)
Fixpoint ToLower (s : string) : string :=
  match s with
  | EmptyString => EmptyString
  | String c s' => String (toLower c) (ToLower s')
  end.

(** The slice expression [w[:n]]. *)
Definition prefix (n : nat) (w : string) : string := substring 0 n w.

(** [c] is one of the bytes of [cutset]. *)
Definition inCutset (cutset : string) (c : ascii) : bool :=
  existsb (Ascii.eqb c) (list_ascii_of_string cutset).

(** [strings.TrimRight(s, cutset)]: [s] without its trailing bytes of
    [cutset]. *)
Fixpoint TrimRight (s cutset : string) : string :=
  match s with
  | EmptyString => EmptyString
  | String c s' =>
      match TrimRight s' cutset with
      | EmptyString =>
          if inCutset cutset c then EmptyString else String c EmptyString
      | t => String c t
      end
  end.

End strings.

(* ===================================================================== *)
(** ** Go's [strconv] package and integer conversion                      *)
(* ===================================================================== *)

Module strconv.

Definition isDigit (c : ascii) : bool :=
  let n := nat_of_ascii c in (48 <=? n)%nat && (n <=? 57)%nat.

(** The number that the decimal digits [s] continue from [n]; [None] at
    a byte that is no digit. *)
Fixpoint digits_value (s : string) (n : N) : option N :=
  match s with
  | EmptyString => Some n
  | String c s' =>
      if isDigit c
      then digits_value s' (10 * n + (N_of_ascii c - 48))%N
      else None
  end.

Definition maxUint64 : N := (2 ^ 64 - 1)%N.

(** [strconv.ParseUint(s, 10, 64)]: [None] stands for a non-nil error
    (empty text, a byte that is no digit, a value above [maxUint64]). *)
Definition ParseUint (s : string) : option N :=
  match s with
  | EmptyString => None
  | _ =>
      match digits_value s 0 with
      | None => None
      | Some v => if (v <=? maxUint64)%N then Some v else None
      end
  end.

(** The conversion [int64(val)] of a [uint64]: the same 64 bits, read in
    two's complement. *)
Definition int64_of_uint64 (v : N) : Z :=
  if (v <? 2 ^ 63)%N then Z.of_N v else (Z.of_N v - 2 ^ 64)%Z.

End strconv.

(* ===================================================================== *)
(** ** The storage layer                                                  *)
(* ===================================================================== *)

Module sql.

(** Go [error] values met in these sources. *)
Inductive error : Type :=
| ErrMissingUser                 (* dt.ErrMissingUser *)
| ErrNoRows                      (* sql.ErrNoRows *)
| errors_New (msg : string)      (* errors.New(msg) *)
| driver_error (msg : string).   (* any failure reported by the store *)

#[global] Instance error_eq_dec : EqDecision error.
Proof. solve_decision. Defined.

(** A row of table [inputs]: one earlier turn of a user. *)
Record InputRow : Type := {
  userid : N;
  objects : list string;
  actors : list string;
  times : list string;
  places : list string
}.

(** [dt.City], a row of table [cities]. *)
Record City : Type := { Name : string; CountryCode : string }.

#[global] Instance City_eq_dec : EqDecision City.
Proof. solve_decision. Defined.

(** The statements these sources send; [EmptyStatement] is the empty
    text. *)
Inductive Query : Type :=
| SelectInput (column : string) (uid : N)
| SelectCities (args : list string)
| EmptyStatement.

(** What the store does to one statement: it may fail the query, the
    scan of a row of its result, or the close of its result. *)
Record Faults : Type := {
  on_query : option string;
  on_scan : option string;
  on_close : option string
}.

Definition no_fault : Faults :=
  {| on_query := None; on_scan := None; on_close := None |}.

(** The handle: table contents, the faults that the store has in stock
    for the first, the second, ... statement sent through the handle,
    and the statements issued so far, oldest first.  Every statement
    can fail on its own. *)
Record DB : Type := {
  inputs : list InputRow;
  cities : list City;
  faults : nat -> Faults;
  issued : list Query
}.

(** The faults that the statement sent next will meet. *)
Definition query_fault (db : DB) : option string :=
  on_query (faults db (length (issued db))).
Definition scan_fault (db : DB) : option string :=
  on_scan (faults db (length (issued db))).
Definition close_fault (db : DB) : option string :=
  on_close (faults db (length (issued db))).

Definition log (q : Query) (db : DB) : DB :=
  {| inputs := inputs db; cities := cities db; faults := faults db;
     issued := issued db ++ [q] |}.

(** [sql.NullInt64] and [sql.NullBool]. *)
Record NullInt64 : Type := { Int64 : Z; Valid : bool }.
Record NullBool : Type := { Bool : bool; BoolValid : bool }.

(** State monad over the handle. *)
Definition M (A : Type) : Type := DB -> A * DB.
Definition ret {A} (a : A) : M A := fun db => (a, db).
Definition bind {A B} (c : M A) (k : A -> M B) : M B :=
  fun db => let (a, db') := c db in k a db'.

End sql.

Import sql.

Notation "x <- c ;; k" := (bind c (fun x => k))
  (at level 100, c at next level, right associativity).

Module sqlx.

(** The column of [inputs] that [SELECT <datatype>] names; the statement
    is refused for another name. *)
Definition column (datatype : string) : option (InputRow -> list string) :=
  if decide (datatype = "objects") then Some objects
  else if decide (datatype = "actors") then Some actors
  else if decide (datatype = "times") then Some times
  else if decide (datatype = "places") then Some places
  else None.

(** [WHERE userid=$1 AND array_length(objects, 1) > 0]. *)
Definition qualifying (uid : N) (r : InputRow) : bool :=
  bool_decide (userid r = uid) && negb (bool_decide (objects r = [])).

(** [db.Get(&tmp, "SELECT <datatype> FROM inputs WHERE ...", uid)]: the
    first row of the result in the store's own order, [sql.ErrNoRows]
    when the result is empty. *)
Definition Get (datatype : string) (uid : N) : M (error + list string) :=
  fun db =>
    let db' := log (SelectInput datatype uid) db in
    match query_fault db, column datatype with
    | Some msg, _ => (inl (driver_error msg), db')
    | None, None => (inl (driver_error "column does not exist"), db')
    | None, Some col =>
        match filter (fun r => qualifying uid r = true) (inputs db) with
        | [] => (inl ErrNoRows, db')
        | r :: _ =>
            match scan_fault db with
            | Some msg => (inl (driver_error msg), db')
            | None => (inr (col r), db')
            end
        end
    end.

(** [ORDER BY LENGTH(name) DESC]. *)
Definition longer_first (a b : City) : Prop :=
  (String.length (Name b) <= String.length (Name a))%nat.

#[global] Instance longer_first_dec : RelDecision longer_first.
Proof. intros a b. unfold longer_first. apply _. Defined.

(** The rows selected by
    [SELECT name, countrycode FROM cities WHERE countrycode='US'
     AND name IN (args) ORDER BY LENGTH(name) DESC]. *)
Definition select_cities (args : list string) (tbl : list City) : list City :=
  merge_sort longer_first
    (filter (fun c => CountryCode c = "US" /\ Name c ∈ args) tbl).

(** [sqlx.In(q, args)]: the statement with one placeholder for every
    argument.  With no argument at all it fails and its statement is the
    empty text. *)
Definition In (args : list string) : Query * option error :=
  match args with
  | [] => (EmptyStatement, Some (errors_New "empty slice passed to 'in' query"))
  | _ => (SelectCities args, None)
  end.

(** [*sql.Rows]: the rows still to be read, and what the store does to
    their scan and to the close. *)
Record Rows : Type := {
  pending : list City;
  rows_scan_fault : option string;
  rows_close_fault : option string
}.

(** The rows that a statement selects from table [cities]; the empty
    statement selects none. *)
Definition rows_of (stmt : Query) (tbl : list City) : list City :=
  match stmt with
  | SelectCities args => select_cities args tbl
  | _ => []
  end.

(** [db.Query]: the result, or the store's error. *)
Definition Query (stmt : sql.Query) : M (error + Rows) :=
  fun db =>
    let db' := log stmt db in
    match query_fault db with
    | Some msg => (inl (driver_error msg), db')
    | None =>
        (inr {| pending := rows_of stmt (cities db);
                rows_scan_fault := scan_fault db;
                rows_close_fault := close_fault db |}, db')
    end.

(** [rows.Scan(&city.Name, &city.CountryCode)] at the row [row]. *)
Definition Scan (rows : Rows) (row : City) : M (error + City) :=
  fun db =>
    match rows_scan_fault rows with
    | Some msg => (inl (driver_error msg), db)
    | None => (inr row, db)
    end.

(** [rows.Close()]. *)
Definition Close (rows : Rows) : M (option error) :=
  fun db =>
    match rows_close_fault rows with
    | Some msg => (Some (driver_error msg), db)
    | None => (None, db)
    end.

End sqlx.

(* ===================================================================== *)
(** ** Package [nlp]: the classifier's output                             *)
(* ===================================================================== *)

Module nlp.

(** [type StringSlice []string]. *)
Abbreviation StringSlice := (list string).

(** Modelled from the spec: [StringSlice.Last] is not part of the
    sources at hand.  The accessor "returns the last element of that
    sequence", and the empty string when the sequence is empty. *)
Definition Last (s : StringSlice) : string := List.last s "".

(** Modelled from the spec: the declaration of [StructuredInput] is not
    part of the sources at hand.  It "contains four named categories,
    Objects, Actors, Times, Places, each an ordered sequence of
    entity-mention strings, and a set of Pronoun tokens found in the
    utterance", which [Pronouns] hands out "in the order the classifier
    produced them". *)
Record StructuredInput : Type := {
  Objects : StringSlice;
  Actors : StringSlice;
  Times : StringSlice;
  Places : StringSlice;
  Pronouns : list string
}.

#[global] Instance StructuredInput_eq_dec : EqDecision StructuredInput.
Proof. solve_decision. Defined.

End nlp.

Import nlp.

(* ===================================================================== *)
(** ** Package [dt]                                                       *)
(* ===================================================================== *)

Module dt.

(** [dt.User]: only the identifier is read here. *)
Record User : Type := { ID : N }.

(** [dt.Msg], without the untyped [State] map.  [User] is a pointer in
    the source: [None] is [nil]. *)
Record Msg : Type := {
  Sentence : string;
  SentenceAnnotated : string;
  MsgUser : option User;
  MsgStructuredInput : StructuredInput;
  Stems : list string;
  Route : string;
  Package : string;
  MsgSentenceFields : list string
}.

(** *** [SentenceFields] *)

(** The runes of the [case]: apostrophe, double quote, comma, full
    stop, colon, semicolon, exclamation mark, question mark. *)
Definition isMark (r : ascii) : bool :=
  match nat_of_ascii r with
  | 39 | 34 | 44 | 46 | 58 | 59 | 33 | 63 => true
  | _ => false
  end.

(** The inner loop [for _, r := range w]: the state is [(end, ret)]. *)
Fixpoint scan_runes (w : string) (st : bool * list string)
  : bool * list string :=
  match w with
  | EmptyString => st
  | String r w' =>
      scan_runes w'
        (if isMark r then (true, snd st ++ [String r ""]) else st)
  end.

(** One round of the outer loop, for the field [w]. *)
Definition SentenceFields_word (ret : list string) (w : string)
  : list string :=
  let (end_, ret) := scan_runes w (false, ret) in
  if end_
  then ret ++ [strings.ToLower (strings.prefix (String.length w - 1) w)]
  else ret ++ [strings.ToLower w].

Definition SentenceFields (s : string) : list string :=
  fold_left SentenceFields_word (strings.Fields s) [].

(** *** [addContext] and [getContextObject] *)

(** The in-place loop
    [for i, o := range l { if o != w { continue }; l[i] = ctx }],
    from index [i] on, for [n] more rounds. *)
Fixpoint rewrite_from (w ctx : string) (i n : nat) (l : StringSlice)
  : StringSlice :=
  match n with
  | O => l
  | S n' =>
      match l !! i with
      | None => l
      | Some o =>
          if decide (o = w)
          then rewrite_from w ctx (S i) n' (<[i:=ctx]> l)
          else rewrite_from w ctx (S i) n' l
      end
  end.

Definition rewrite (w ctx : string) (l : StringSlice) : StringSlice :=
  rewrite_from w ctx 0 (length l) l.

Definition set_si (m : Msg) (si : StructuredInput) : Msg :=
  {| Sentence := Sentence m; SentenceAnnotated := SentenceAnnotated m;
     MsgUser := MsgUser m; MsgStructuredInput := si; Stems := Stems m;
     Route := Route m; Package := Package m;
     MsgSentenceFields := MsgSentenceFields m |}.

Definition set_Objects (l : StringSlice) (m : Msg) : Msg :=
  let si := MsgStructuredInput m in
  set_si m {| Objects := l; Actors := Actors si; Times := Times si;
              Places := Places si; Pronouns := Pronouns si |}.
Definition set_Actors (l : StringSlice) (m : Msg) : Msg :=
  let si := MsgStructuredInput m in
  set_si m {| Objects := Objects si; Actors := l; Times := Times si;
              Places := Places si; Pronouns := Pronouns si |}.
Definition set_Times (l : StringSlice) (m : Msg) : Msg :=
  let si := MsgStructuredInput m in
  set_si m {| Objects := Objects si; Actors := Actors si; Times := l;
              Places := Places si; Pronouns := Pronouns si |}.
Definition set_Places (l : StringSlice) (m : Msg) : Msg :=
  let si := MsgStructuredInput m in
  set_si m {| Objects := Objects si; Actors := Actors si; Times := Times si;
              Places := l; Pronouns := Pronouns si |}.

Definition getContextObject (u : option User) (si : StructuredInput)
    (datatype : string) : M (string * option error) :=
  match u with
  | None => ret ("", Some ErrMissingUser)
  | Some u =>
      r <- sqlx.Get datatype (ID u) ;;
      match r with
      | inl err => ret ("", Some err)
      | inr tmp => ret (Last tmp, None)
      end
  end.

(** What one round of the loop over the pronouns does next. *)
Inductive flow : Type :=
| Continue (m : Msg)                       (* on to the next pronoun *)
| Return (m : Msg) (err : option error).   (* [return m, err] *)

Section Resolver.

(** The tags [nlp.ObjectI], [nlp.ActorI], [nlp.TimeI], [nlp.PlaceI] and
    the table [nlp.Pronouns] are declared outside the sources at hand
    and are parameters here.  Indexing the table with an absent key
    gives Go's zero value. *)
Variables ObjectI ActorI TimeI PlaceI : Z.
Variable nlp_Pronouns : gmap string Z.

Definition tag_of (w : string) : Z := default 0%Z (nlp_Pronouns !! w).

(** A [case] of the [switch]: fetch the antecedent for column
    [datatype]; on success rewrite the list [get m] with it. *)
Definition resolve_in (datatype : string) (get : StructuredInput -> StringSlice)
    (set : StringSlice -> Msg -> Msg) (w : string) (m : Msg) : M flow :=
  r <- getContextObject (MsgUser m) (MsgStructuredInput m) datatype ;;
  let (ctx, err) := r in
  match err with
  | Some e => ret (Return m (Some e))
  | None =>
      if decide (ctx = "") then ret (Return m None)
      else ret (Continue (set (rewrite w ctx (get (MsgStructuredInput m))) m))
  end.

(** The body of [for _, w := range m.StructuredInput.Pronouns()]. *)
Definition addContext_body (w : string) (m : Msg) : M flow :=
  let t := tag_of w in
  if decide (t = ObjectI) then resolve_in "objects" Objects set_Objects w m
  else if decide (t = ActorI) then resolve_in "actors" Actors set_Actors w m
  else if decide (t = TimeI) then resolve_in "times" Times set_Times w m
  else if decide (t = PlaceI) then resolve_in "places" Places set_Places w m
  else ret (Return m (Some (errors_New "unknown type found for pronoun"))).

Fixpoint addContext_loop (ws : list string) (m : Msg)
  : M (Msg * option error) :=
  match ws with
  | [] => ret (m, None)
  | w :: ws' =>
      r <- addContext_body w m ;;
      match r with
      | Continue m' => addContext_loop ws' m'
      | Return m' err => ret (m', err)
      end
  end.

(** The range expression is evaluated once, before the first round. *)
Definition addContext (m : Msg) : M (Msg * option error) :=
  addContext_loop (Pronouns (MsgStructuredInput m)) m.

(** [NewMsg].  The stemmer ([porter2.Stemmer.Stem]) and the classifier
    ([nlp.Classify], whose [StructuredInput] is taken to be non-nil) are
    outside the sources at hand and are parameters.  The error of the
    classifier and the error of [addContext] are logged and dropped. *)
Variable Stem : string -> string.
Variable Classify : string -> StructuredInput * string * option error.

(** The loop [for _, w := range words] that fills [stems]. *)
Fixpoint stems_of (words : list string) (stems : list string) : list string :=
  match words with
  | [] => stems
  | w :: words' =>
      let w := strings.TrimRight w ",.?;:!-/" in
      stems_of words' (stems ++ [Stem w])
  end.

Definition NewMsg (u : option User) (cmd : string) : M Msg :=
  let words := strings.Fields cmd in
  let stems := stems_of words [] in
  let '(si, annotated, _) := Classify cmd in
  let m := {| Sentence := cmd; SentenceAnnotated := annotated;
              MsgUser := u; MsgStructuredInput := si; Stems := stems;
              Route := ""; Package := "";
              MsgSentenceFields := SentenceFields cmd |} in
  r <- addContext m ;;
  ret (fst r).

End Resolver.

(** *** [GetLastRoute] *)

(** A row of table [messages]. *)
Record MessageRow : Type := {
  msg_userid : N;
  msg_route : string;
  msg_createdat : N
}.

(** The handle as [GetLastRoute] sees it: the store of the other
    functions, table [messages] and the users whose last route was
    asked for, oldest first. *)
Record RouteDB : Type := {
  handle : DB;
  messages : list MessageRow;
  route_queries : list N
}.

(** [ORDER BY createdat DESC]. *)
Definition newer_first (a b : MessageRow) : Prop :=
  (msg_createdat b <= msg_createdat a)%N.

#[global] Instance newer_first_dec : RelDecision newer_first.
Proof. intros a b. unfold newer_first. apply _. Defined.

(** The rows of
    [SELECT route FROM messages WHERE userid=$1 ORDER BY createdat DESC]. *)
Definition select_routes (uid : N) (tbl : list MessageRow) : list MessageRow :=
  merge_sort newer_first (filter (fun r => msg_userid r = uid) tbl).

(** [db.Get(&route, q, uid)]: the variable [route] afterwards (still the
    empty string when nothing was scanned) and the error. *)
Definition GetRoute (uid : N) (db : RouteDB) : (string * option error) * RouteDB :=
  let db' := {| handle := handle db; messages := messages db;
                route_queries := route_queries db ++ [uid] |} in
  match query_fault (handle db) with
  | Some msg => (("", Some (driver_error msg)), db')
  | None =>
      match select_routes uid (messages db) with
      | [] => (("", Some ErrNoRows), db')
      | r :: _ =>
          match scan_fault (handle db) with
          | Some msg => (("", Some (driver_error msg)), db')
          | None => ((msg_route r, None), db')
          end
      end
  end.

(** [(m *Msg) GetLastRoute]; [None] is the panic of [m.User.ID] on a
    [nil] user. *)
Definition GetLastRoute (m : Msg) (db : RouteDB)
  : option ((string * option error) * RouteDB) :=
  match MsgUser m with
  | None => None
  | Some u =>
      let '((route, err), db') := GetRoute (ID u) db in
      match err with
      | Some e =>
          if decide (e = ErrNoRows) then Some ((route, None), db')
          else Some (("", Some e), db')
      | None => Some ((route, None), db')
      end
  end.

End dt.

(* ===================================================================== *)
(** ** Package [language]                                                 *)
(* ===================================================================== *)

Module language.

Import dt.

(** A byte matched by [\w] or by [\s]; [regexNonWords] is the
    complement of this class. *)
Definition isWordOrSpace (c : ascii) : bool :=
  let n := nat_of_ascii c in
  ((48 <=? n)%nat && (n <=? 57)%nat)
  || ((65 <=? n)%nat && (n <=? 90)%nat)
  || (n =? 95)%nat
  || ((97 <=? n)%nat && (n <=? 122)%nat)
  || match n with 9 | 10 | 12 | 13 | 32 => true | _ => false end.

(** [regexNonWords.ReplaceAllString(s, "")]. *)
Fixpoint stripNonWords (s : string) : string :=
  match s with
  | EmptyString => EmptyString
  | String c s' =>
      if isWordOrSpace c then String c (stripNonWords s')
      else stripNonWords s'
  end.

(** [case "at", "in", "on"]. *)
Definition isLocative (stem : string) : bool :=
  bool_decide (stem = "at" \/ stem = "in" \/ stem = "on").

(** The loop [for i := range in.Stems] with its [switch]: [i] is the
    index of the head of [stems], [start] the variable of that name.
    The [break] leaves the [switch], and the loop goes on. *)
Fixpoint scan_start (stems : list string) (i start : nat) : nat :=
  match stems with
  | [] => start
  | s :: rest => scan_start rest (S i) (if isLocative s then i else start)
  end.

Definition find_start (stems : list string) : nat := scan_start stems 0 0.

(** [for i := start; i < len(words); i++ { args = append(args, words[i]) }],
    from [i] on, for [n] more rounds. *)
Fixpoint unigrams_from (words : list string) (i n : nat) (args : list string)
  : list string :=
  match n with
  | O => args
  | S n' =>
      match words !! i with
      | None => args
      | Some w => unigrams_from words (S i) n' (args ++ [w])
      end
  end.

(** The loop of [bigrams], from [i] on, for [n] more rounds. *)
Fixpoint bigrams_from (words : list string) (i n : nat) (acc : list string)
  : list string :=
  match n with
  | O => acc
  | S n' =>
      match words !! i, words !! (S i) with
      | Some a, Some b =>
          bigrams_from words (S i) n' (acc ++ [a +:+ " " +:+ b])
      | _, _ => acc
      end
  end.

(** [for i := startIndex; i < len(words)-1; i++]. *)
Definition bigrams (words : list string) (startIndex : nat) : list string :=
  bigrams_from words startIndex (length words - 1 - startIndex) [].

(** The arguments assembled for the query: the words from [start] on,
    then the bigrams from [start] on. *)
Definition candidates (in_ : Msg) : list string :=
  let start := find_start (Stems in_) in
  let tmp := stripNonWords (Sentence in_) in
  let words := strings.Fields tmp in
  let args := unigrams_from words start (length words - start) [] in
  let bgs := bigrams words start in
  args ++ bgs.

(** [for rows.Next() { ... rows.Scan ...; cities = append(cities, city) }],
    with [todo] the rows not yet read. *)
Fixpoint scan_rows (rows : sqlx.Rows) (todo : list City) (cities : list City)
  : M (error + list City) :=
  match todo with
  | [] => ret (inr cities)
  | row :: todo' =>
      r <- sqlx.Scan rows row ;;
      match r with
      | inl err => ret (inl err)
      | inr city => scan_rows rows todo' (cities ++ [city])
      end
  end.

(** [ExtractCities]; a [nil] slice is the empty list.  The error of
    [sqlx.In] is overwritten before it is looked at. *)
Definition ExtractCities (in_ : Msg) : M (list City * option error) :=
  let args := candidates in_ in
  let '(query, _) := sqlx.In args in
  r <- sqlx.Query query ;;
  match r with
  | inl err => ret ([], Some err)
  | inr rows =>
      r <- scan_rows rows (sqlx.pending rows) [] ;;
      match r with
      | inl err => ret ([], Some err)
      | inr cities =>
          e <- sqlx.Close rows ;;
          match e with
          | Some err => ret ([], Some err)
          | None => ret (cities, None)
          end
      end
  end.

(** *** [ExtractCount] *)

(** The digits at the head of [s]. *)
Fixpoint takeDigits (s : string) : string :=
  match s with
  | EmptyString => EmptyString
  | String c s' =>
      if strconv.isDigit c then String c (takeDigits s') else EmptyString
  end.

(** [regexNum.FindString(s)] for [regexNum = \d+]: the leftmost run of
    digits, as long as it goes; empty when there is no digit. *)
Fixpoint findNum (s : string) : string :=
  match s with
  | EmptyString => EmptyString
  | String c s' =>
      if strconv.isDigit c then String c (takeDigits s') else findNum s'
  end.

Definition ExtractCount (s : string) : NullInt64 :=
  let n := {| Int64 := 0; Valid := false |} in
  let s := findNum s in
  if (String.length s =? 0)%nat then n
  else
    match strconv.ParseUint s with
    | None => n
    | Some val => {| Int64 := strconv.int64_of_uint64 val; Valid := true |}
    end.

(** *** [ExtractYesNo] *)

(** The cutset of [ExtractYesNo]: space, full stop, comma, semicolon,
    colon, exclamation mark, question mark, apostrophe, double quote. *)
Definition yesNoCutset : string := " .,;:!?'" +:+ String "034" "".

Section YesNo.

(** The tables [yes] and [no] are declared outside the sources at hand
    and are parameters; an absent key reads as [false]. *)
Variables yes no : gmap string bool.

(** The loop [for _, w := range ss]. *)
Fixpoint ExtractYesNo_loop (ss : list string) : NullBool :=
  match ss with
  | [] => {| Bool := false; BoolValid := false |}
  | w :: ss' =>
      let w := strings.TrimRight w yesNoCutset in
      if default false (yes !! w) then {| Bool := true; BoolValid := true |}
      else if default false (no !! w)
           then {| Bool := false; BoolValid := true |}
           else ExtractYesNo_loop ss'
  end.

Definition ExtractYesNo (s : string) : NullBool :=
  let ss := strings.Fields (strings.ToLower s) in
  ExtractYesNo_loop ss.

End YesNo.

End language.

Import dt language.

(* ===================================================================== *)
(** ** Notions used to state the facts                                    *)
(* ===================================================================== *)

(** The field [w] contains none of the eight marks. *)
Fixpoint noMark (w : string) : bool :=
  match w with
  | EmptyString => true
  | String r w' => negb (isMark r) && noMark w'
  end.

(** The four categories of a [StructuredInput], with the column of table
    [inputs], the list and the store that belong to each. *)
Inductive category : Type := CObjects | CActors | CTimes | CPlaces.

#[global] Instance category_eq_dec : EqDecision category.
Proof. solve_decision. Defined.

Definition cat_column (c : category) : string :=
  match c with
  | CObjects => "objects" | CActors => "actors"
  | CTimes => "times" | CPlaces => "places"
  end.

Definition cat_list (c : category) : StructuredInput -> StringSlice :=
  match c with
  | CObjects => Objects | CActors => Actors
  | CTimes => Times | CPlaces => Places
  end.

Definition cat_set (c : category) : StringSlice -> Msg -> Msg :=
  match c with
  | CObjects => set_Objects | CActors => set_Actors
  | CTimes => set_Times | CPlaces => set_Places
  end.

Definition cat_row (c : category) : InputRow -> list string :=
  match c with
  | CObjects => objects | CActors => actors
  | CTimes => times | CPlaces => places
  end.

(** "Rewrite every occurrence of [w] with the antecedent string (exact
    string match)". *)
Definition replace_all (w ctx : string) (l : StringSlice) : StringSlice :=
  map (fun o => if decide (o = w) then ctx else o) l.

(** The four category lists of [si'] are as long as those of [si]. *)
Definition same_lengths (si si' : StructuredInput) : Prop :=
  forall c, length (cat_list c si') = length (cat_list c si).

(** The antecedent lookup that the pass makes for category [c] in state
    [m]. *)
Definition lookup (c : category) (m : Msg) : M (string * option error) :=
  getContextObject (MsgUser m) (MsgStructuredInput m) (cat_column c).

(** The message that a round leaves behind. *)
Definition flow_msg (f : flow) : Msg :=
  match f with Continue m => m | Return m _ => m end.

Section ResolverNotions.

Variables ObjectI ActorI TimeI PlaceI : Z.
Variable nlp_Pronouns : gmap string Z.

(** The [case] that the [switch] selects for the pronoun [w]; [None] is
    the [default] case. *)
Definition category_of (w : string) : option category :=
  let t := tag_of nlp_Pronouns w in
  if decide (t = ObjectI) then Some CObjects
  else if decide (t = ActorI) then Some CActors
  else if decide (t = TimeI) then Some CTimes
  else if decide (t = PlaceI) then Some CPlaces
  else None.

(** The pass goes through all of [pre] without returning: the state and
    the handle it then has. *)
Fixpoint resolved_prefix (pre : list string) (m : Msg) (db : DB)
  : option (Msg * DB) :=
  match pre with
  | [] => Some (m, db)
  | w :: pre' =>
      match addContext_body ObjectI ActorI TimeI PlaceI nlp_Pronouns w m db with
      | (Continue m', db') => resolved_prefix pre' m' db'
      | (Return _ _, _) => None
      end
  end.

End ResolverNotions.

(** The number of marks in [s]. *)
Fixpoint countMarks (s : string) : nat :=
  match s with
  | EmptyString => 0
  | String r s' => (if isMark r then 1 else 0) + countMarks s'
  end.

(** [s] contains no white space. *)
Fixpoint noSpace (s : string) : bool :=
  match s with
  | EmptyString => true
  | String c s' => negb (strings.isSpace c) && noSpace s'
  end.

(** Every byte of [s] satisfies [p]. *)
Fixpoint allBytes (p : ascii -> bool) (s : string) : bool :=
  match s with
  | EmptyString => true
  | String c s' => p c && allBytes p s'
  end.

(** A byte matched by [\w]. *)
Definition isWordByte (c : ascii) : bool :=
  let n := nat_of_ascii c in
  ((48 <=? n)%nat && (n <=? 57)%nat)
  || ((65 <=? n)%nat && (n <=? 90)%nat)
  || (n =? 95)%nat
  || ((97 <=? n)%nat && (n <=? 122)%nat).

(** The bigram of two adjacent words. *)
Definition joined (a b : string) : string := a +:+ " " +:+ b.

(** The words of the sentence of [in_], as [ExtractCities] sees them. *)
Definition words_of (in_ : Msg) : list string :=
  strings.Fields (stripNonWords (Sentence in_)).

(** The store answers every call. *)
Definition healthy (db : DB) : Prop :=
  query_fault db = None /\ scan_fault db = None /\ close_fault db = None.

(** The fields of a message that [addContext] has no business with. *)
Definition same_frame (m m' : Msg) : Prop :=
  Sentence m' = Sentence m
  /\ SentenceAnnotated m' = SentenceAnnotated m
  /\ MsgUser m' = MsgUser m
  /\ Stems m' = Stems m
  /\ Route m' = Route m
  /\ Package m' = Package m
  /\ MsgSentenceFields m' = MsgSentenceFields m
  /\ Pronouns (MsgStructuredInput m') = Pronouns (MsgStructuredInput m).

(** The tables of [db'], and the faults that the store has in stock,
    are those of [db]. *)
Definition same_tables (db db' : DB) : Prop :=
  inputs db' = inputs db /\ cities db' = cities db
  /\ faults db' = faults db.

(** No statement sent through [db] from now on fails its query or the
    scan of its result. *)
Definition never_fails (db : DB) : Prop :=
  forall k, length (issued db) <= k ->
    on_query (faults db k) = None /\ on_scan (faults db k) = None.

(** The turn that a lookup for user [uid] reads, if any. *)
Definition first_turn (uid : N) (db : DB) : option InputRow :=
  head (filter (fun r => sqlx.qualifying uid r = true) (inputs db)).

(** The list of category [c] after all the pronouns [ws] have been
    resolved, each pronoun of category [c] by the antecedent [ante c]. *)
Definition resolve_list (cat : string -> option category)
    (ante : category -> string) (c : category) (ws : list string)
    (l : StringSlice) : StringSlice :=
  fold_left
    (fun l w => if decide (cat w = Some c) then replace_all w (ante c) l else l)
    ws l.

(** [s] begins with a digit. *)
Definition startsWithDigit (s : string) : bool :=
  match s with
  | EmptyString => false
  | String c _ => strconv.isDigit c
  end.

(** *** Sample data *)

Definition sample_si (objs acts tms plcs prons : list string)
  : StructuredInput :=
  {| Objects := objs; Actors := acts; Times := tms; Places := plcs;
     Pronouns := prons |}.

Definition sample_msg (s : string) (stems : list string) (u : option User)
    (si : StructuredInput) : Msg :=
  {| Sentence := s; SentenceAnnotated := ""; MsgUser := u;
     MsgStructuredInput := si; Stems := stems; Route := ""; Package := "";
     MsgSentenceFields := SentenceFields s |}.

Definition sample_db (rows : list InputRow) (tbl : list City) : DB :=
  {| inputs := rows; cities := tbl; faults := fun _ => no_fault;
     issued := [] |}.

Definition sample_paris : Msg :=
  sample_msg "see you in Paris" ["see"; "you"; "in"; "pari"] None
    (sample_si [] [] [] [] []).

Definition sample_gazetteer : DB :=
  sample_db [] [ {| Name := "New York"; CountryCode := "US" |};
                 {| Name := "Paris"; CountryCode := "FR" |} ].

Definition sample_new_york : Msg :=
  sample_msg "meet me in New York City"
    ["meet"; "me"; "in"; "new"; "york"; "citi"] None
    (sample_si [] [] [] [] []).

Definition sample_places : DB :=
  sample_db [] [ {| Name := "York"; CountryCode := "US" |};
                 {| Name := "New York"; CountryCode := "US" |};
                 {| Name := "York"; CountryCode := "GB" |} ].

(** The messages of two users. *)
Definition sample_routes : RouteDB :=
  {| handle := sample_db [] [];
     messages :=
       [ {| msg_userid := 1; msg_route := "purchase"; msg_createdat := 10 |};
         {| msg_userid := 2; msg_route := "weather"; msg_createdat := 30 |};
         {| msg_userid := 1; msg_route := "onboard"; msg_createdat := 20 |} ];
     route_queries := [] |}.

(** Tables of answers. *)
Definition sample_yes : gmap string bool :=
  list_to_map [("yes", true); ("sure", true); ("yep", true)].
Definition sample_no : gmap string bool :=
  list_to_map [("no", true); ("nope", true)].

(** A pronoun table, with tags 2 to 5 for actors, objects, times and
    places. *)
Definition sample_table : gmap string Z :=
  list_to_map [("he", 2%Z); ("it", 3%Z); ("then", 4%Z); ("there", 5%Z)].

Definition sample_addContext : Msg -> M (Msg * option error) :=
  addContext 3 2 4 5 sample_table.

Definition sample_user : option User := Some {| ID := 1 |}.

(** One earlier turn of user 1, about a shirt in Paris, with no actor and
    no time. *)
Definition sample_history : DB :=
  sample_db [ {| userid := 1; objects := ["the red shirt"]; actors := [];
                 times := []; places := ["Paris"] |} ] [].

(** "is it there then": an object, a place and a time pronoun. *)
Definition sample_turn : Msg :=
  sample_msg "is it there then" ["is"; "it"; "there"; "then"] sample_user
    (sample_si ["it"] [] ["then"] ["there"] ["it"; "then"; "there"]).

(** [sample_turn] once "it" is resolved. *)
Definition sample_turn_it : Msg :=
  sample_msg "is it there then" ["is"; "it"; "there"; "then"] sample_user
    (sample_si ["the red shirt"] [] ["then"] ["there"]
       ["it"; "then"; "there"]).

(** A turn whose classifier output holds a pronoun outside the table. *)
Definition sample_odd : Msg :=
  sample_msg "is it yonder there" ["is"; "it"; "yonder"; "there"] sample_user
    (sample_si ["it"] [] [] ["yonder"; "there"] ["it"; "yonder"; "there"]).

Definition sample_odd_it : Msg :=
  sample_msg "is it yonder there" ["is"; "it"; "yonder"; "there"] sample_user
    (sample_si ["the red shirt"] [] [] ["yonder"; "there"]
       ["it"; "yonder"; "there"]).

(** The same, after a time pronoun. *)
Definition sample_odd_late : Msg :=
  sample_msg "then yonder" ["then"; "yonder"] sample_user
    (sample_si [] [] ["then"] ["yonder"] ["then"; "yonder"]).

(** A turn with a pronoun and no user. *)
Definition sample_anonymous : Msg :=
  sample_msg "how much is it" ["how"; "much"; "is"; "it"] None
    (sample_si ["it"] [] [] [] ["it"]).

(** A turn without pronouns. *)
Definition sample_plain : Msg :=
  sample_msg "buy the red shirt" ["buy"; "the"; "red"; "shirt"] sample_user
    (sample_si ["the red shirt"] [] [] [] []).

(** The turns of two users: user 1 spoke of nothing, then of a shirt in
    Paris, then of a hat in Rome. *)
Definition sample_turns : DB :=
  sample_db
    [ {| userid := 2; objects := ["a car"]; actors := []; times := [];
         places := ["Oslo"] |};
      {| userid := 1; objects := []; actors := ["bob"]; times := [];
         places := ["Lima"] |};
      {| userid := 1; objects := ["a coat"; "the red shirt"]; actors := [];
         times := []; places := ["Paris"] |};
      {| userid := 1; objects := ["a hat"]; actors := []; times := [];
         places := ["Rome"] |} ] [].

(** A store whose statements fail. *)
Definition sample_broken : DB :=
  {| inputs := inputs sample_history; cities := [];
     faults := fun _ => {| on_query := Some "connection refused";
                           on_scan := None; on_close := None |};
     issued := [] |}.

(** A store that answers the first statement and fails the second. *)
Definition sample_flaky : DB :=
  {| inputs := inputs sample_history; cities := [];
     faults := fun k => match k with
                        | 1 => {| on_query := Some "connection reset";
                                  on_scan := None; on_close := None |}
                        | _ => no_fault
                        end;
     issued := [] |}.

(** A user without any turn. *)
Definition sample_newcomer : DB := sample_db [] [].

(** A user whose only turn has no object. *)
Definition sample_objectless : DB :=
  sample_db [ {| userid := 1; objects := []; actors := ["bob"];
                 times := []; places := [] |} ] [].

(** [sample_both] once "it" is resolved. *)
Definition sample_both_it : Msg :=
  sample_msg "is it there" ["is"; "it"; "there"] sample_user
    (sample_si ["the red shirt"; "a bag"; "the red shirt"] [] []
       ["there"; "there"] ["it"; "there"]).

(** "is it there": an object and a place pronoun, each occurring twice
    among the mentions. *)
Definition sample_both : Msg :=
  sample_msg "is it there" ["is"; "it"; "there"] sample_user
    (sample_si ["it"; "a bag"; "it"] [] [] ["there"; "there"]
       ["it"; "there"]).


(* ===================================================================== *)
(** ** Facts about [SentenceFields]                                       *)
(* ===================================================================== *)

Section SentenceFieldsFacts.

Lemma scan_runes_noMark w st : noMark w = true -> scan_runes w st = st.
Proof.
  revert st. induction w as [|r w IH]; intros st H; simpl in *; [done|].
  apply andb_prop in H as [Hr Hw].
  destruct (isMark r); [done|]. by apply IH.
Qed.

(** A field without any of the eight marks yields one token, the field
    in lower case. *)
Lemma SentenceFields_word_plain ret w :
  noMark w = true ->
  SentenceFields_word ret w = ret ++ [strings.ToLower w].
Proof.
  intros H. unfold SentenceFields_word. by rewrite scan_runes_noMark.
Qed.

Lemma scan_runes_app w1 w2 st :
  scan_runes (w1 +:+ w2) st = scan_runes w2 (scan_runes w1 st).
Proof.
  revert st. induction w1 as [|r w1 IH]; intros st; simpl; [done|].
  apply IH.
Qed.

Lemma length_app_one w r :
  String.length (w +:+ String r "") = S (String.length w).
Proof. induction w as [|c w IH]; simpl; [done|]. by rewrite IH. Qed.

Lemma prefix_app_one w r :
  strings.prefix (String.length w) (w +:+ String r "") = w.
Proof.
  unfold strings.prefix.
  induction w as [|c w IH]; simpl; [done|]. by rewrite IH.
Qed.

(** A field made of mark-free text followed by one mark yields the mark
    as a token of its own, then the text in lower case. *)
Lemma SentenceFields_word_trailing ret base r :
  noMark base = true -> isMark r = true ->
  SentenceFields_word ret (base +:+ String r "")
  = ret ++ [String r ""; strings.ToLower base].
Proof.
  intros Hb Hr. unfold SentenceFields_word.
  rewrite scan_runes_app, (scan_runes_noMark base) by done.
  simpl. rewrite Hr. simpl.
  rewrite length_app_one. simpl. rewrite Nat.sub_0_r, prefix_app_one.
  by rewrite <- app_assoc.
Qed.

Lemma scan_runes_ret w : forall b (ret l : list string),
  scan_runes w (b, ret ++ l)
  = (fst (scan_runes w (b, l)), ret ++ snd (scan_runes w (b, l))).
Proof.
  induction w as [|r w IH]; intros b ret l; simpl; [done|].
  destruct (isMark r); simpl; [|apply IH].
  rewrite <- app_assoc. apply IH.
Qed.

(** The tokens of a field do not depend on the tokens before it. *)
Lemma SentenceFields_word_ret ret w :
  SentenceFields_word ret w = ret ++ SentenceFields_word [] w.
Proof.
  unfold SentenceFields_word.
  rewrite <- (app_nil_r ret) at 1. rewrite scan_runes_ret.
  destruct (scan_runes w (false, [])) as [e l]; simpl.
  destruct e; by rewrite <- app_assoc.
Qed.

(** [SentenceFields] is the concatenation, field by field, of the tokens
    of each field. *)
Lemma SentenceFields_concat s :
  SentenceFields s = concat (map (SentenceFields_word []) (strings.Fields s)).
Proof.
  unfold SentenceFields.
  assert (forall ws ret, fold_left SentenceFields_word ws ret
            = ret ++ concat (map (SentenceFields_word []) ws)) as H.
  { induction ws as [|w ws IH]; intros ret; simpl.
    - by rewrite app_nil_r.
    - rewrite IH, (SentenceFields_word_ret ret w). by rewrite <- app_assoc. }
  apply H.
Qed.

End SentenceFieldsFacts.

(** C5.  [SentenceFields] does not split every field into its lower-cased
  word and its trailing punctuation: once a mark occurs anywhere in a
  field, exactly one final byte is cut off, whatever it is.  A field
  ending in two marks keeps the first mark inside the word token, and a
  field with an inner apostrophe loses its last letter. *)
Theorem SentenceFields_cuts_one_byte :
SentenceFields "Wait?!" = ["?"; "!"; "wait?"]
/\ SentenceFields "I don't know" = ["i"; "'"; "don'"; "know"].
Proof. split; reflexivity. Qed.

(* ===================================================================== *)
(** ** Facts about [ExtractCities]                                        *)
(* ===================================================================== *)

Section PlaceFacts.

Lemma scan_start_no_locative stems i start :
  Forall (fun s => isLocative s = false) stems ->
  scan_start stems i start = start.
Proof.
  intros H. revert i. induction H as [|s stems Hs _ IH]; intros i; simpl.
  - done.
  - rewrite Hs. apply IH.
Qed.

(** Without any of the three prepositions the scan leaves [start] at 0:
    candidates come from the whole sentence. *)
Lemma find_start_no_locative stems :
  Forall (fun s => isLocative s = false) stems -> find_start stems = 0.
Proof. apply scan_start_no_locative. Qed.

Lemma scan_start_last pre p post i start :
  isLocative p = true ->
  Forall (fun s => isLocative s = false) post ->
  scan_start (pre ++ p :: post) i start = i + length pre.
Proof.
  intros Hp Hpost. revert i start.
  induction pre as [|s pre IH]; intros i start; simpl.
  - rewrite Hp, scan_start_no_locative by done. lia.
  - rewrite IH. lia.
Qed.

(** With a preposition present, [start] ends at the index of its LAST
    occurrence. *)
Lemma find_start_last pre p post :
  isLocative p = true ->
  Forall (fun s => isLocative s = false) post ->
  find_start (pre ++ p :: post) = length pre.
Proof. intros. unfold find_start. by rewrite scan_start_last. Qed.

Lemma unigrams_from_drop words : forall n i args,
  n = length words - i ->
  unigrams_from words i n args = args ++ drop i words.
Proof.
  induction n as [|n IH]; intros i args Hn; simpl.
  - rewrite drop_ge by lia. by rewrite app_nil_r.
  - destruct (words !! i) as [w|] eqn:Hw.
    + rewrite IH by lia. rewrite <- app_assoc. simpl.
      by rewrite (drop_S _ _ _ Hw).
    + apply lookup_ge_None in Hw. lia.
Qed.

Lemma filter_none {A} (P : A -> Prop) `{!forall x, Decision (P x)} (l : list A) :
  (forall x, x ∈ l -> ~ P x) -> filter P l = [].
Proof.
  induction l as [|a l IH]; intros Hno; [done|].
  rewrite filter_cons_False.
  - apply IH. intros x Hx. apply Hno. by right.
  - apply Hno. by left.
Qed.

Lemma select_cities_no_match args tbl :
  (forall c, c ∈ tbl -> CountryCode c = "US" -> Name c ∉ args) ->
  sqlx.select_cities args tbl = [].
Proof.
  intros H. unfold sqlx.select_cities.
  rewrite filter_none; [done|].
  intros c Hc [Hus Hin]. by apply (H c).
Qed.

Lemma select_cities_nil tbl : sqlx.select_cities [] tbl = [].
Proof.
  apply select_cities_no_match. intros c _ _ Hin.
  by apply elem_of_nil in Hin.
Qed.

(** The rows of the statement that [sqlx.In] hands over are the rows of
    the selection, also when there is no argument. *)
Lemma rows_of_In args tbl :
  sqlx.rows_of (fst (sqlx.In args)) tbl = sqlx.select_cities args tbl.
Proof. destruct args; simpl; [by rewrite select_cities_nil|done]. Qed.

Lemma scan_rows_eq rows todo : forall acc db,
  scan_rows rows todo acc db
  = (match todo, sqlx.rows_scan_fault rows with
     | _ :: _, Some msg => inl (driver_error msg)
     | _, _ => inr (acc ++ todo)
     end, db).
Proof.
  destruct (sqlx.rows_scan_fault rows) as [msg|] eqn:Hf.
  - intros acc db. destruct todo as [|row todo]; simpl.
    + by rewrite app_nil_r.
    + unfold bind, sqlx.Scan. by rewrite Hf.
  - induction todo as [|row todo IH]; intros acc db; simpl.
    + by rewrite app_nil_r.
    + unfold bind, sqlx.Scan. rewrite Hf. simpl.
      rewrite IH, <- app_assoc. by destruct todo.
Qed.

(** [ExtractCities], outcome by outcome. *)
Lemma ExtractCities_eq in_ db :
  ExtractCities in_ db
  = (match query_fault db with
     | Some msg => ([], Some (driver_error msg))
     | None =>
         match sqlx.select_cities (candidates in_) (cities db),
               scan_fault db with
         | _ :: _, Some msg => ([], Some (driver_error msg))
         | rows, _ =>
             match close_fault db with
             | Some msg => ([], Some (driver_error msg))
             | None => (rows, None)
             end
         end
     end, log (fst (sqlx.In (candidates in_))) db).
Proof.
  unfold ExtractCities.
  destruct (sqlx.In (candidates in_)) as [query err] eqn:Hin.
  pose proof (rows_of_In (candidates in_) (cities db)) as Hrows.
  rewrite Hin in Hrows. simpl in Hrows.
  unfold bind, sqlx.Query.
  destruct (query_fault db) as [msg|]; [done|].
  rewrite scan_rows_eq. cbn [sqlx.pending sqlx.rows_scan_fault].
  rewrite Hrows.
  destruct (sqlx.select_cities _ _) as [|row rows];
    [|destruct (scan_fault db); [done|]];
    unfold sqlx.Close; cbn [sqlx.rows_close_fault];
    by destruct (close_fault db).
Qed.

(** An error of [ExtractCities] is always an error of the store. *)
Lemma ExtractCities_error in_ db e :
  snd (fst (ExtractCities in_ db)) = Some e ->
  exists msg, e = driver_error msg
    /\ (query_fault db = Some msg \/ scan_fault db = Some msg
        \/ close_fault db = Some msg).
Proof.
  rewrite ExtractCities_eq. simpl.
  destruct (query_fault db) as [msg|]; [intros [= <-]; eauto|].
  destruct (sqlx.select_cities _ _) as [|row rows];
    [|destruct (scan_fault db) as [msg|]; [intros [= <-]; eauto 6|]];
    (destruct (close_fault db) as [msg|]; [intros [= <-]; eauto 6|done]).
Qed.

End PlaceFacts.

(** C2.  [ExtractCities] does not begin at the first preposition: the
    [break] only leaves the [switch], so the scan runs to the end of the
    stems and [start] is the index of the last preposition.  For "in
    Boston on Friday" the candidates begin at "on" (index 2), and "Boston"
    is never a candidate. *)
Theorem ExtractCities_starts_at_last_locative :
  let in_ := sample_msg "in Boston on Friday"
               ["in"; "boston"; "on"; "friday"] None
               (sample_si [] [] [] [] []) in
  find_start (Stems in_) = 2
  /\ candidates in_ = ["on"; "Friday"; "on Friday"].
Proof. split; reflexivity. Qed.

(** C9.  When no candidate names a US entry of the gazetteer,
    [ExtractCities] returns the empty sequence; it returns it without an
    error when the store does not fail, and the only errors it can return
    are those of a failing query or close. *)
Theorem ExtractCities_no_match (in_ : Msg) (db : DB) :
  (forall c, c ∈ cities db -> CountryCode c = "US" ->
             Name c ∉ candidates in_) ->
  fst (fst (ExtractCities in_ db)) = []
  /\ (query_fault db = None -> close_fault db = None ->
      fst (ExtractCities in_ db) = ([], None))
  /\ (forall e, snd (fst (ExtractCities in_ db)) = Some e ->
      exists msg, e = driver_error msg
        /\ (query_fault db = Some msg \/ close_fault db = Some msg)).
Proof.
  intros Hno.
  assert (forall d, fst (ExtractCities in_ db) = d ->
            d = ([], None) /\ query_fault db = None /\ close_fault db = None
            \/ exists msg, d = ([], Some (driver_error msg))
                 /\ (query_fault db = Some msg \/ close_fault db = Some msg))
    as Hcases.
  { intros d <-. rewrite ExtractCities_eq. simpl.
    destruct (query_fault db) as [msg|] eqn:Hq; [right; eauto|].
    rewrite select_cities_no_match by done.
    destruct (close_fault db) as [msg|] eqn:Hc; [right; eauto|].
    by left. }
  destruct (Hcases _ eq_refl) as [(-> & Hq & Hc)|(msg & -> & Hm)].
  - split; [done|]. split; [done|]. simpl. discriminate.
  - split; [done|]. split.
    + intros Hq Hc. destruct Hm as [Hm|Hm]; congruence.
    + simpl. intros e [= <-]. eauto.
Qed.

Lemma ExtractCities_no_match_witness :
  fst (ExtractCities sample_paris sample_gazetteer) = ([], None).
Proof.
  refine (proj1 (proj2 (ExtractCities_no_match sample_paris sample_gazetteer _))
            _ _).
  - intros c Hc Hus.
    apply list_elem_of_In in Hc. simpl in Hc.
    destruct Hc as [<-|[<-|[]]]; simpl in Hus; [|discriminate].
    vm_compute. intros Hin. apply list_elem_of_In in Hin. simpl in Hin.
    intuition discriminate.
  - reflexivity.
  - reflexivity.
Defined.

(* ===================================================================== *)
(** ** Facts about [getContextObject]                                     *)
(* ===================================================================== *)

Section LookupFacts.

(** Without a user there is no query: the handle is returned as it was. *)
Lemma getContextObject_no_user si datatype db :
  getContextObject None si datatype db = (("", Some ErrMissingUser), db).
Proof. reflexivity. Qed.

Lemma column_cat c : sqlx.column (cat_column c) = Some (cat_row c).
Proof. by destruct c. Qed.

(** A user none of whose turns qualifies gets [sql.ErrNoRows]. *)
Lemma getContextObject_no_rows u si c db :
  query_fault db = None ->
  Forall (fun r => sqlx.qualifying (ID u) r = false) (inputs db) ->
  fst (getContextObject (Some u) si (cat_column c) db)
  = ("", Some ErrNoRows).
Proof.
  intros Hq Hrows. unfold getContextObject, bind, sqlx.Get.
  rewrite Hq, column_cat, filter_none; [done|].
  intros r Hr. rewrite Forall_forall in Hrows.
  rewrite (Hrows r Hr). discriminate.
Qed.

(** A qualifying turn whose requested column is empty gives the empty
    string and no error. *)
Lemma getContextObject_empty_column u si c db r rest :
  query_fault db = None -> scan_fault db = None ->
  filter (fun r => sqlx.qualifying (ID u) r = true) (inputs db) = r :: rest ->
  cat_row c r = [] ->
  fst (getContextObject (Some u) si (cat_column c) db) = ("", None).
Proof.
  intros Hq Hs Hrows Hcol. unfold getContextObject, bind, sqlx.Get.
  by rewrite Hq, column_cat, Hrows, Hs, Hcol.
Qed.

Lemma last_app_one (l : list string) x d : List.last (l ++ [x]) d = x.
Proof. induction l as [|a [|b l] IH]; simpl in *; done. Qed.

(** The antecedent is the last element of the requested column of the
    first qualifying turn. *)
Lemma getContextObject_last u si c db r rest l x :
  query_fault db = None -> scan_fault db = None ->
  filter (fun r => sqlx.qualifying (ID u) r = true) (inputs db) = r :: rest ->
  cat_row c r = l ++ [x] ->
  fst (getContextObject (Some u) si (cat_column c) db) = (x, None).
Proof.
  intros Hq Hs Hrows Hcol. unfold getContextObject, bind, sqlx.Get.
  rewrite Hq, column_cat, Hrows, Hs, Hcol. simpl.
  unfold Last. by rewrite last_app_one.
Qed.

(** With a user, a lookup issues exactly one query. *)
Lemma lookup_handle c m u db :
  MsgUser m = Some u ->
  snd (lookup c m db) = log (SelectInput (cat_column c) (ID u)) db.
Proof.
  intros Hu. unfold lookup, getContextObject, bind, sqlx.Get. rewrite Hu.
  rewrite column_cat.
  destruct (query_fault db); [done|].
  destruct (filter _ (inputs db)); [done|].
  by destruct (scan_fault db).
Qed.

End LookupFacts.

(** C1.  For a user without a qualifying turn [getContextObject] does not
    return the empty string with a [nil] error: [db.Get] finds no row and
    its [sql.ErrNoRows] is handed on.  So it is for a user with no turn at
    all, and for a user whose only turn has no object. *)
Theorem getContextObject_no_qualifying_turn :
  let u := {| ID := 1 |} in
  let si := sample_si ["it"] [] [] [] ["it"] in
  let turn := {| userid := 1; objects := []; actors := ["bob"];
                 times := []; places := [] |} in
  fst (getContextObject (Some u) si "objects" (sample_db [] []))
  = ("", Some ErrNoRows)
  /\ fst (getContextObject (Some u) si "actors" (sample_db [turn] []))
     = ("", Some ErrNoRows).
Proof. split; reflexivity. Qed.

(* ===================================================================== *)
(** ** Facts about [addContext]                                           *)
(* ===================================================================== *)

Section RewriteFacts.

Variables w ctx : string.

Lemma replace_all_cons o l :
  replace_all w ctx (o :: l)
  = (if decide (o = w) then ctx else o) :: replace_all w ctx l.
Proof. reflexivity. Qed.

(** Invariant of the in-place loop: after the rounds up to [i] the list
    is unchanged below [i], and the rounds from [i] on rewrite the rest. *)
Lemma rewrite_from_inv : forall n i (l : StringSlice),
  length l - i <= n ->
  rewrite_from w ctx i n l = take i l ++ replace_all w ctx (drop i l).
Proof.
  induction n as [|n IH]; intros i l Hn; cbn [rewrite_from].
  - rewrite drop_ge, take_ge by lia. by rewrite app_nil_r.
  - destruct (l !! i) as [o|] eqn:Ho.
    + pose proof (lookup_lt_Some _ _ _ Ho) as Hlt.
      rewrite (drop_S _ _ _ Ho), replace_all_cons.
      destruct (decide (o = w)) as [->|Hne].
      * rewrite IH by (rewrite length_insert; lia).
        rewrite (insert_take_drop l i ctx Hlt).
        rewrite (cons_middle ctx), app_assoc.
        rewrite take_app_length', drop_app_length'
          by (rewrite length_app, length_take; simpl; lia).
        by rewrite <- app_assoc.
      * rewrite IH by lia.
        rewrite (take_S_r _ _ _ Ho). by rewrite <- app_assoc.
    + apply lookup_ge_None in Ho.
      rewrite drop_ge, take_ge by lia. by rewrite app_nil_r.
Qed.

(** The loop rewrites exactly the elements equal to [w]. *)
Lemma rewrite_replace_all (l : StringSlice) :
  rewrite w ctx l = replace_all w ctx l.
Proof. unfold rewrite. rewrite rewrite_from_inv by lia. by rewrite drop_0. Qed.

Lemma length_rewrite (l : StringSlice) : length (rewrite w ctx l) = length l.
Proof. rewrite rewrite_replace_all. unfold replace_all. apply length_map. Qed.

End RewriteFacts.

Lemma cat_list_set_same c l m :
  cat_list c (MsgStructuredInput (cat_set c l m)) = l.
Proof. by destruct c. Qed.

Lemma cat_list_set_other c c' l m :
  c' <> c ->
  cat_list c' (MsgStructuredInput (cat_set c l m))
  = cat_list c' (MsgStructuredInput m).
Proof. by destruct c, c'. Qed.

Lemma Pronouns_set c l m :
  Pronouns (MsgStructuredInput (cat_set c l m))
  = Pronouns (MsgStructuredInput m).
Proof. by destruct c. Qed.

Lemma MsgUser_set c l m : MsgUser (cat_set c l m) = MsgUser m.
Proof. by destruct c. Qed.

Lemma same_lengths_refl si : same_lengths si si.
Proof. by intros c. Qed.

Lemma same_lengths_trans si1 si2 si3 :
  same_lengths si1 si2 -> same_lengths si2 si3 -> same_lengths si1 si3.
Proof. intros H12 H23 c. by rewrite H23, H12. Qed.

Section ResolverFacts.

Variables ObjectI ActorI TimeI PlaceI : Z.
Variable nlp_Pronouns : gmap string Z.

Local Abbreviation tag_of := (tag_of nlp_Pronouns).
Local Abbreviation addContext_body :=
  (addContext_body ObjectI ActorI TimeI PlaceI nlp_Pronouns).
Local Abbreviation addContext_loop :=
  (addContext_loop ObjectI ActorI TimeI PlaceI nlp_Pronouns).
Local Abbreviation addContext :=
  (addContext ObjectI ActorI TimeI PlaceI nlp_Pronouns).
Local Abbreviation resolved_prefix :=
  (resolved_prefix ObjectI ActorI TimeI PlaceI nlp_Pronouns).
Local Abbreviation unknown := (errors_New "unknown type found for pronoun").

(** The body, by the case that the [switch] selects. *)
Lemma addContext_body_category w m :
  addContext_body w m =
  match category_of ObjectI ActorI TimeI PlaceI nlp_Pronouns w with
  | Some c => resolve_in (cat_column c) (cat_list c) (cat_set c) w m
  | None => ret (Return m (Some unknown))
  end.
Proof.
  unfold dt.addContext_body, category_of.
  repeat case_decide; reflexivity.
Qed.

(** A pronoun that the table does not hold selects the [default] case,
    zero being none of the tags. *)
Lemma category_of_absent w :
  ~ In 0%Z [ObjectI; ActorI; TimeI; PlaceI] ->
  nlp_Pronouns !! w = None ->
  category_of ObjectI ActorI TimeI PlaceI nlp_Pronouns w = None.
Proof.
  intros Hz Hw. unfold category_of, dt.tag_of. rewrite Hw. simpl in *.
  repeat case_decide; try done; exfalso; apply Hz; auto.
Qed.

Local Abbreviation category_of :=
  (category_of ObjectI ActorI TimeI PlaceI nlp_Pronouns).

(** A [case], by the outcome of its lookup. *)
Lemma resolve_in_lookup c w m db :
  resolve_in (cat_column c) (cat_list c) (cat_set c) w m db =
  match lookup c m db with
  | ((_, Some e), db') => (Return m (Some e), db')
  | ((ctx, None), db') =>
      if decide (ctx = "") then (Return m None, db')
      else (Continue
              (cat_set c (rewrite w ctx (cat_list c (MsgStructuredInput m))) m),
            db')
  end.
Proof.
  unfold resolve_in, lookup, bind.
  destruct (getContextObject _ _ _ db) as [[ctx [e|]] db']; [done|].
  by destruct (decide (ctx = "")).
Qed.

(** Whatever a round does, the four lists keep their lengths. *)
Lemma addContext_body_lengths w m db :
  same_lengths (MsgStructuredInput m)
    (MsgStructuredInput (flow_msg (fst (addContext_body w m db)))).
Proof.
  rewrite addContext_body_category.
  destruct (category_of w) as [c|]; [|apply same_lengths_refl].
  rewrite resolve_in_lookup.
  destruct (lookup c m db) as [[ctx [e|]] db']; simpl;
    [apply same_lengths_refl|].
  destruct (decide (ctx = "")); simpl; [apply same_lengths_refl|].
  intros c'. destruct (decide (c' = c)) as [->|Hne].
  - by rewrite cat_list_set_same, length_rewrite.
  - by rewrite cat_list_set_other.
Qed.

Lemma addContext_loop_lengths ws : forall m db,
  same_lengths (MsgStructuredInput m)
    (MsgStructuredInput (fst (fst (addContext_loop ws m db)))).
Proof.
  induction ws as [|w ws IH]; intros m db; simpl.
  - apply same_lengths_refl.
  - unfold bind.
    pose proof (addContext_body_lengths w m db) as Hb.
    destruct (addContext_body w m db) as [[m'|m' e] db']; simpl in *.
    + eapply same_lengths_trans; [exact Hb|apply IH].
    + exact Hb.
Qed.

(** Once the pass is through [pre], it goes on with the rest from the
    state reached. *)
Lemma addContext_loop_app pre : forall ws m db m1 db1,
  resolved_prefix pre m db = Some (m1, db1) ->
  addContext_loop (pre ++ ws) m db = addContext_loop ws m1 db1.
Proof.
  induction pre as [|w pre IH]; intros ws m db m1 db1; simpl.
  - by intros [= -> ->].
  - unfold bind.
    destruct (addContext_body w m db) as [[m'|m' e] db']; [|done].
    apply IH.
Qed.

(** A round that goes on has made a successful lookup, so there is a
    user. *)
Lemma addContext_body_continue w m db m' db' :
  addContext_body w m db = (Continue m', db') -> MsgUser m <> None.
Proof.
  rewrite addContext_body_category.
  destruct (category_of w) as [c|]; [|discriminate].
  rewrite resolve_in_lookup. unfold lookup.
  destruct (MsgUser m); [done|]. simpl. discriminate.
Qed.

Lemma resolved_prefix_no_user pre m db m1 db1 :
  MsgUser m = None ->
  resolved_prefix pre m db = Some (m1, db1) ->
  pre = [] /\ m1 = m /\ db1 = db.
Proof.
  intros Hu. destruct pre as [|w pre]; simpl.
  - by intros [= -> ->].
  - destruct (addContext_body w m db) as [[m'|m' e] db'] eqn:Hb; [|done].
    by apply addContext_body_continue in Hb.
Qed.

(** Without a user no pass ever issues a query or changes the message. *)
Lemma addContext_no_user m db :
  MsgUser m = None ->
  snd (addContext m db) = db /\ fst (fst (addContext m db)) = m.
Proof.
  intros Hu. unfold dt.addContext.
  destruct (Pronouns (MsgStructuredInput m)) as [|w ws]; [done|].
  cbn [dt.addContext_loop]. unfold bind.
  rewrite addContext_body_category.
  destruct (category_of w) as [c|]; [|done].
  rewrite resolve_in_lookup. unfold lookup. by rewrite Hu.
Qed.

(** C7.  With an empty pronoun set [addContext] returns the message
    unchanged and no error, and issues no query; so resolving a message
    that has no pronoun left returns the same value. *)
Theorem addContext_no_pronouns m db :
  Pronouns (MsgStructuredInput m) = [] ->
  addContext m db = ((m, None), db).
Proof. intros H. unfold dt.addContext. by rewrite H. Qed.

(** C10.  On every path, with or without an error, the message that
    [addContext] returns has its four category lists as long as they
    were. *)
Theorem addContext_preserves_lengths m db :
  let si := MsgStructuredInput m in
  let si' := MsgStructuredInput (fst (fst (addContext m db))) in
  length (Objects si') = length (Objects si)
  /\ length (Actors si') = length (Actors si)
  /\ length (Times si') = length (Times si)
  /\ length (Places si') = length (Places si).
Proof.
  pose proof (addContext_loop_lengths (Pronouns (MsgStructuredInput m)) m db)
    as H.
  split; [apply (H CObjects)|].
  split; [apply (H CActors)|].
  split; [apply (H CTimes)|apply (H CPlaces)].
Qed.

(** A round for a pronoun [w] of category [c] whose lookup gives a
    non-empty antecedent [ctx]: it replaces in the list of [c] exactly
    the elements equal to [w] by [ctx], leaves the other three lists and
    the rest of the message as they were, and the loop goes on. *)
Lemma addContext_body_rewrites w c ctx m db :
  category_of w = Some c ->
  fst (lookup c m db) = (ctx, None) ->
  ctx <> "" ->
  exists m',
    addContext_body w m db = (Continue m', snd (lookup c m db))
    /\ cat_list c (MsgStructuredInput m')
       = replace_all w ctx (cat_list c (MsgStructuredInput m))
    /\ (forall c', c' <> c ->
          cat_list c' (MsgStructuredInput m')
          = cat_list c' (MsgStructuredInput m))
    /\ Pronouns (MsgStructuredInput m') = Pronouns (MsgStructuredInput m)
    /\ (forall ws, addContext_loop (w :: ws) m db
                   = addContext_loop ws m' (snd (lookup c m db))).
Proof.
  intros Hc Hl Hne.
  exists (cat_set c (rewrite w ctx (cat_list c (MsgStructuredInput m))) m).
  assert (addContext_body w m db
          = (Continue
               (cat_set c (rewrite w ctx (cat_list c (MsgStructuredInput m))) m),
             snd (lookup c m db))) as Hb.
  { rewrite addContext_body_category, Hc, resolve_in_lookup.
    destruct (lookup c m db) as [[ctx' e] db']. simpl in *.
    injection Hl as -> ->. by destruct (decide (ctx = "")). }
  split; [exact Hb|].
  split; [by rewrite cat_list_set_same, rewrite_replace_all|].
  split; [intros c' Hc'; by apply cat_list_set_other|].
  split; [apply Pronouns_set|].
  intros ws. cbn [dt.addContext_loop]. unfold bind. by rewrite Hb.
Qed.

(** When the pass, having gone through the pronouns [pre], is at a
    pronoun [w] whose lookup gives the empty string and no error,
    [addContext] returns at once: no error, the message as the rounds for
    [pre] left it, and no query for [w]'s successors. *)
Lemma addContext_empty_antecedent m db pre w post c m1 db1 :
  Pronouns (MsgStructuredInput m) = pre ++ w :: post ->
  resolved_prefix pre m db = Some (m1, db1) ->
  category_of w = Some c ->
  fst (lookup c m1 db1) = ("", None) ->
  addContext m db = ((m1, None), snd (lookup c m1 db1)).
Proof.
  intros Hp Hpre Hc Hl. unfold dt.addContext.
  rewrite Hp, (addContext_loop_app pre _ _ _ _ _ Hpre).
  cbn [dt.addContext_loop]. unfold bind.
  rewrite addContext_body_category, Hc, resolve_in_lookup.
  destruct (lookup c m1 db1) as [[ctx e] db']. simpl in *.
  by injection Hl as -> ->.
Qed.

(** C4, as amended.  When the pass, having gone through the pronouns
    [pre], is at a pronoun [w] that the table does not hold, [addContext]
    returns the error "unknown type found for pronoun" together with the
    message as the rounds for [pre] left it, and issues no further query.
    (Zero, the table's answer for an absent key, is none of the four
    tags.) *)
Theorem addContext_unknown_pronoun m db pre w post m1 db1 :
  ~ In 0%Z [ObjectI; ActorI; TimeI; PlaceI] ->
  nlp_Pronouns !! w = None ->
  Pronouns (MsgStructuredInput m) = pre ++ w :: post ->
  resolved_prefix pre m db = Some (m1, db1) ->
  addContext m db = ((m1, Some unknown), db1).
Proof.
  intros Hz Hw Hp Hpre. unfold dt.addContext.
  rewrite Hp, (addContext_loop_app pre _ _ _ _ _ Hpre).
  cbn [dt.addContext_loop]. unfold bind.
  by rewrite addContext_body_category, category_of_absent.
Qed.

(** C8.  Without a user, when the pass is at a pronoun that has a
    category, [addContext] returns [ErrMissingUser] with the message and
    the handle untouched: no query was issued; and so does every lookup
    made without a user. *)
Theorem addContext_missing_user m db pre w post c m1 db1 :
  MsgUser m = None ->
  Pronouns (MsgStructuredInput m) = pre ++ w :: post ->
  resolved_prefix pre m db = Some (m1, db1) ->
  category_of w = Some c ->
  addContext m db = ((m, Some ErrMissingUser), db)
  /\ (forall datatype,
        getContextObject (MsgUser m) (MsgStructuredInput m) datatype db
        = (("", Some ErrMissingUser), db)).
Proof.
  intros Hu Hp Hpre Hc.
  destruct (resolved_prefix_no_user _ _ _ _ _ Hu Hpre) as (-> & -> & ->).
  split.
  - unfold dt.addContext. rewrite Hp. cbn [app dt.addContext_loop].
    unfold bind. rewrite addContext_body_category, Hc, resolve_in_lookup.
    unfold lookup. by rewrite Hu.
  - intros datatype. by rewrite Hu.
Qed.

End ResolverFacts.

(** *** The theorems at the sample data *)

Lemma addContext_no_pronouns_witness :
  sample_addContext sample_plain sample_history
  = ((sample_plain, None), sample_history).
Proof.
  apply (addContext_no_pronouns 3 2 4 5 sample_table). reflexivity.
Defined.

Lemma addContext_empty_antecedent_witness :
  sample_addContext sample_turn sample_history
  = ((sample_turn_it, None),
     snd (lookup CTimes sample_turn_it
            (log (SelectInput "objects" 1) sample_history))).
Proof.
  apply (addContext_empty_antecedent 3 2 4 5 sample_table
           sample_turn sample_history ["it"] "then" ["there"] CTimes).
  - reflexivity.
  - vm_compute. reflexivity.
  - vm_compute. reflexivity.
  - vm_compute. reflexivity.
Defined.

Lemma addContext_unknown_pronoun_witness :
  sample_addContext sample_odd sample_history
  = ((sample_odd_it,
      Some (errors_New "unknown type found for pronoun")),
     log (SelectInput "objects" 1) sample_history).
Proof.
  apply (addContext_unknown_pronoun 3 2 4 5 sample_table
           sample_odd sample_history ["it"] "yonder" ["there"]).
  - simpl. intros [H|[H|[H|[H|[]]]]]; discriminate H.
  - vm_compute. reflexivity.
  - reflexivity.
  - vm_compute. reflexivity.
Defined.

Lemma addContext_missing_user_witness :
  sample_addContext sample_anonymous sample_history
  = ((sample_anonymous, Some ErrMissingUser), sample_history)
  /\ (forall datatype,
        getContextObject (MsgUser sample_anonymous)
          (MsgStructuredInput sample_anonymous) datatype sample_history
        = (("", Some ErrMissingUser), sample_history)).
Proof.
  apply (addContext_missing_user 3 2 4 5 sample_table
           sample_anonymous sample_history [] "it" [] CObjects
           sample_anonymous sample_history).
  - reflexivity.
  - reflexivity.
  - reflexivity.
  - vm_compute. reflexivity.
Defined.

(** C4, as the claim states it, fails: [sample_odd_late] holds the pronoun
    "yonder", which the table does not hold, yet [addContext] returns no
    error, because the time pronoun before it has no antecedent and ends
    the pass silently. *)
Lemma addContext_unknown_pronoun_unreported :
  In "yonder" (Pronouns (MsgStructuredInput sample_odd_late))
  /\ sample_table !! "yonder" = None
  /\ fst (sample_addContext sample_odd_late sample_history)
     = (sample_odd_late, None).
Proof.
  split; [simpl; auto|]. split; vm_compute; reflexivity.
Qed.

(* ===================================================================== *)
(** ** Further facts about [strings.Fields] and [SentenceFields]          *)
(* ===================================================================== *)

Section FieldsFacts.

Lemma toLower_idemp c : strings.toLower (strings.toLower c) = strings.toLower c.
Proof. destruct c as [[] [] [] [] [] [] [] []]; reflexivity. Qed.

Lemma ToLower_idemp s : strings.ToLower (strings.ToLower s) = strings.ToLower s.
Proof. induction s as [|c s IH]; simpl; [done|]. by rewrite toLower_idemp, IH. Qed.

Lemma ToLower_app s t :
  strings.ToLower (s +:+ t) = strings.ToLower s +:+ strings.ToLower t.
Proof. induction s as [|c s IH]; simpl; [done|]. by rewrite IH. Qed.

Lemma toLower_mark r : isMark r = true -> strings.toLower r = r.
Proof. destruct r as [[] [] [] [] [] [] [] []]; (reflexivity || discriminate). Qed.

Lemma space_no_mark c : strings.isSpace c = true -> isMark c = false.
Proof. destruct c as [[] [] [] [] [] [] [] []]; (reflexivity || discriminate). Qed.

Lemma toLower_space c : strings.isSpace (strings.toLower c) = strings.isSpace c.
Proof. destruct c as [[] [] [] [] [] [] [] []]; reflexivity. Qed.

Lemma isEmpty_app_one cur c : strings.isEmpty (cur +:+ String c "") = false.
Proof. by destruct cur. Qed.

(** No field is empty. *)
Lemma Fields_from_nonempty s : forall cur,
  Forall (fun w => strings.isEmpty w = false) (strings.Fields_from cur s).
Proof.
  induction s as [|c s IH]; intros cur; simpl.
  - destruct (strings.isEmpty cur) eqn:E; [constructor|].
    by repeat constructor.
  - destruct (strings.isSpace c); [|apply IH].
    destruct (strings.isEmpty cur) eqn:E; [apply IH|].
    constructor; [done|apply IH].
Qed.

Lemma allBytes_app p s t :
  allBytes p (s +:+ t) = allBytes p s && allBytes p t.
Proof. induction s as [|c s IH]; simpl; [done|]. by rewrite IH, andb_assoc. Qed.

(** A property of bytes that all bytes of the text outside white space
    have is had by all bytes of all fields. *)
Lemma Fields_from_allBytes p s : forall cur,
  allBytes p cur = true ->
  allBytes (fun c => strings.isSpace c || p c) s = true ->
  Forall (fun w => allBytes p w = true) (strings.Fields_from cur s).
Proof.
  induction s as [|c s IH]; intros cur Hcur Hs; simpl in *.
  - destruct (strings.isEmpty cur); by repeat constructor.
  - apply andb_prop in Hs as [Hc Hs].
    destruct (strings.isSpace c) eqn:Hsp.
    + destruct (strings.isEmpty cur); [by apply IH|].
      constructor; [done|by apply IH].
    + apply IH; [|done]. rewrite allBytes_app, Hcur. simpl in *.
      by rewrite Hc.
Qed.

Lemma allBytes_weaken (p q : ascii -> bool) s :
  (forall c, p c = true -> q c = true) ->
  allBytes p s = true -> allBytes q s = true.
Proof.
  intros Hpq. induction s as [|c s IH]; simpl; [done|].
  intros H. apply andb_prop in H as [Hc Hs].
  by rewrite (Hpq c Hc), IH.
Qed.

Lemma noMark_allBytes s : noMark s = allBytes (fun r => negb (isMark r)) s.
Proof. induction s as [|c s IH]; simpl; [done|]. by rewrite IH. Qed.

Lemma Fields_noMark s :
  noMark s = true -> Forall (fun w => noMark w = true) (strings.Fields s).
Proof.
  intros H. rewrite noMark_allBytes in H.
  eapply Forall_impl.
  - apply (Fields_from_allBytes (fun r => negb (isMark r))); [done|].
    eapply allBytes_weaken; [|exact H].
    intros c Hc. simpl in Hc. rewrite Hc. apply orb_true_r.
  - intros w Hw. by rewrite noMark_allBytes.
Qed.

Lemma countMarks_app s t : countMarks (s +:+ t) = countMarks s + countMarks t.
Proof. induction s as [|c s IH]; simpl; [done|]. rewrite IH. lia. Qed.

(** The marks of a text are the marks of its fields. *)
Lemma Fields_from_countMarks s : forall cur,
  list_sum (map countMarks (strings.Fields_from cur s))
  = countMarks cur + countMarks s.
Proof.
  induction s as [|c s IH]; intros cur; simpl.
  - destruct cur; simpl; lia.
  - destruct (strings.isSpace c) eqn:Hsp.
    + rewrite (space_no_mark c Hsp).
      destruct cur as [|a cur]; simpl; rewrite IH; simpl; lia.
    + rewrite IH, countMarks_app. simpl. lia.
Qed.

Lemma scan_runes_end w : forall b l,
  fst (scan_runes w (b, l)) = b || negb (noMark w).
Proof.
  induction w as [|r w IH]; intros b l; simpl.
  - by rewrite orb_false_r.
  - destruct (isMark r); simpl; rewrite IH; [by rewrite orb_true_r|done].
Qed.

Lemma scan_runes_length w : forall b l,
  length (snd (scan_runes w (b, l))) = length l + countMarks w.
Proof.
  induction w as [|r w IH]; intros b l; simpl; [lia|].
  destruct (isMark r); rewrite IH; [rewrite length_app; simpl|]; lia.
Qed.

Lemma scan_runes_Forall (P : string -> Prop) w :
  (forall r, isMark r = true -> P (String r "")) ->
  forall b l, Forall P l -> Forall P (snd (scan_runes w (b, l))).
Proof.
  intros HP. induction w as [|r w IH]; intros b l Hl; simpl; [done|].
  destruct (isMark r) eqn:Hr; apply IH; [|done].
  apply Forall_app. split; [done|]. repeat constructor. by apply HP.
Qed.

Lemma SentenceFields_word_length w :
  length (SentenceFields_word [] w) = countMarks w + 1.
Proof.
  unfold SentenceFields_word.
  pose proof (scan_runes_length w false []) as Hl.
  destruct (scan_runes w (false, [])) as [e l]; simpl in *.
  destruct e; rewrite length_app; simpl; lia.
Qed.

End FieldsFacts.

(** X1.  A text without any mark is split at white space and put in
    lower case, nothing else. *)
Theorem SentenceFields_no_marks s :
  noMark s = true ->
  SentenceFields s = map strings.ToLower (strings.Fields s).
Proof.
  intros H. rewrite SentenceFields_concat.
  pose proof (Fields_noMark s H) as Hf.
  induction Hf as [|w ws Hw _ IH]; simpl; [done|].
  rewrite (SentenceFields_word_plain [] w Hw). simpl. by rewrite IH.
Qed.

Lemma SentenceFields_no_marks_witness :
  SentenceFields "Buy the RED shirt"
  = map strings.ToLower (strings.Fields "Buy the RED shirt").
Proof. apply SentenceFields_no_marks. reflexivity. Defined.

(** X2.  [SentenceFields] returns one token for every field and one more
    for every mark of the text. *)
Theorem SentenceFields_length s :
  length (SentenceFields s) = length (strings.Fields s) + countMarks s.
Proof.
  rewrite SentenceFields_concat.
  pose proof (Fields_from_countMarks s "") as Hm. simpl in Hm.
  rewrite <- Hm. unfold strings.Fields. clear Hm.
  induction (strings.Fields_from "" s) as [|w ws IH]; simpl; [done|].
  rewrite length_app, IH, SentenceFields_word_length. lia.
Qed.

(** X3.  Every token that [SentenceFields] returns is in lower case:
    putting it in lower case again changes nothing. *)
Theorem SentenceFields_lower s :
  Forall (fun t => strings.ToLower t = t) (SentenceFields s).
Proof.
  rewrite SentenceFields_concat.
  induction (strings.Fields s) as [|w ws IH]; simpl; [constructor|].
  apply Forall_app. split; [|exact IH].
  unfold SentenceFields_word.
  pose proof (scan_runes_Forall (fun t => strings.ToLower t = t) w) as Hm.
  specialize (Hm (fun r Hr => f_equal (fun c => String c "") (toLower_mark r Hr))
                 false [] (List.Forall_nil _)).
  destruct (scan_runes w (false, [])) as [e l]; simpl in *.
  destruct e; apply Forall_app; (split; [done|]);
    repeat constructor; apply ToLower_idemp.
Qed.

Lemma ToLower_empty t : strings.ToLower t = "" -> t = "".
Proof. by destruct t. Qed.

Lemma SentenceFields_word_empty_token w :
  strings.isEmpty w = false ->
  In "" (SentenceFields_word [] w)
  <-> exists r, isMark r = true /\ w = String r "".
Proof.
  intros Hw. unfold SentenceFields_word.
  pose proof (scan_runes_Forall (fun t => t <> "") w
                (fun r _ => ltac:(discriminate)) false [] (List.Forall_nil _))
    as Hm.
  pose proof (scan_runes_end w false []) as He.
  destruct (scan_runes w (false, [])) as [e l]; simpl in *. subst e.
  rewrite Forall_forall in Hm.
  assert (forall t, In "" (l ++ [t]) <-> t = "") as Hin.
  { intros t. rewrite in_app_iff. simpl. split.
    - intros [H|[H|[]]]; [|done].
      apply list_elem_of_In in H. by apply Hm in H.
    - intros ->. auto. }
  destruct w as [|c [|c' w]]; [done| |].
  - simpl. rewrite andb_true_r.
    destruct (isMark c) eqn:Hc; simpl; rewrite Hin.
    + split; [eauto|done].
    + split; [done|]. intros (r & Hr & [= <-]). congruence.
  - destruct (negb (noMark (String c (String c' w)))); rewrite Hin; simpl;
      (split; [done|]); intros (r & _ & [=]).
Qed.

(** X4.  [SentenceFields] returns an empty token exactly when one of the
    fields of the text is a single mark: the mark is emitted, the last
    byte is cut, and nothing is left of the word. *)
Theorem SentenceFields_empty_token s :
  In "" (SentenceFields s)
  <-> exists r, isMark r = true /\ In (String r "") (strings.Fields s).
Proof.
  rewrite SentenceFields_concat.
  pose proof (Fields_from_nonempty s "") as Hne.
  fold (strings.Fields s) in Hne.
  induction Hne as [|w ws Hw _ IH]; simpl.
  - split; [done|]. by intros (r & _ & []).
  - rewrite in_app_iff, IH, (SentenceFields_word_empty_token w Hw).
    split.
    + intros [(r & Hr & ->)|(r & Hr & Hin)]; exists r; auto.
    + intros (r & Hr & [->|Hin]); [left|right]; eauto.
Qed.

(* ===================================================================== *)
(** ** Further facts about [ExtractCities] and [bigrams]                  *)
(* ===================================================================== *)

Section CandidateFacts.

Lemma zip_with_nil_r {A B C} (f : A -> B -> C) (l : list A) :
  zip_with f l [] = [].
Proof. by destruct l. Qed.

Lemma bigrams_from_zip words : forall n i acc,
  n = length words - 1 - i ->
  bigrams_from words i n acc
  = acc ++ zip_with joined (drop i words) (drop (S i) words).
Proof.
  induction n as [|n IH]; intros i acc Hn; cbn [bigrams_from].
  - rewrite (drop_ge words (S i)) by lia.
    by rewrite zip_with_nil_r, app_nil_r.
  - destruct (words !! i) as [a|] eqn:Ha;
      [|apply lookup_ge_None in Ha; lia].
    destruct (words !! S i) as [b|] eqn:Hb;
      [|apply lookup_ge_None in Hb; lia].
    rewrite IH by lia.
    rewrite (drop_S _ _ _ Ha), (drop_S _ _ (S i) Hb). simpl.
    by rewrite <- app_assoc.
Qed.

Lemma length_zip_with_drop (words : list string) i :
  length (zip_with joined (drop i words) (drop (S i) words))
  = length words - 1 - i.
Proof. rewrite length_zip_with, !length_drop. lia. Qed.

#[local] Instance longer_first_total : Total sqlx.longer_first.
Proof. intros a b. unfold sqlx.longer_first. lia. Qed.

#[local] Instance longer_first_trans : Transitive sqlx.longer_first.
Proof. intros a b c. unfold sqlx.longer_first. lia. Qed.

Lemma select_cities_sorted args tbl :
  StronglySorted sqlx.longer_first (sqlx.select_cities args tbl).
Proof. apply StronglySorted_merge_sort; apply _. Qed.

Lemma select_cities_elem args tbl c :
  c ∈ sqlx.select_cities args tbl
  <-> c ∈ tbl /\ CountryCode c = "US" /\ Name c ∈ args.
Proof.
  unfold sqlx.select_cities.
  rewrite merge_sort_Permutation, list_elem_of_filter. tauto.
Qed.

Lemma stripNonWords_bytes s : allBytes isWordOrSpace (stripNonWords s) = true.
Proof.
  induction s as [|c s IH]; simpl; [done|].
  destruct (isWordOrSpace c) eqn:Hc; simpl; [by rewrite Hc|done].
Qed.

Lemma isWordOrSpace_split c :
  isWordOrSpace c = true -> strings.isSpace c || isWordByte c = true.
Proof.
  destruct c as [[] [] [] [] [] [] [] []]; (reflexivity || discriminate).
Qed.

End CandidateFacts.

Lemma bigrams_eq_zip words startIndex :
  bigrams words startIndex
  = zip_with joined (drop startIndex words) (drop (S startIndex) words).
Proof. unfold bigrams. by rewrite bigrams_from_zip. Qed.

Lemma candidates_eq in_ :
  candidates in_
  = drop (find_start (Stems in_)) (words_of in_)
    ++ zip_with joined (drop (find_start (Stems in_)) (words_of in_))
         (drop (S (find_start (Stems in_))) (words_of in_)).
Proof.
  unfold candidates. fold (words_of in_).
  rewrite unigrams_from_drop by done. by rewrite bigrams_eq_zip.
Qed.

(** X5.  [bigrams words startIndex] joins, with one space, every word
    from [startIndex] on with its successor: one bigram less than there
    are words from [startIndex] on, and none when [startIndex] is at or
    beyond the last word. *)
Theorem bigrams_zip words startIndex :
  bigrams words startIndex
  = zip_with joined (drop startIndex words) (drop (S startIndex) words)
  /\ length (bigrams words startIndex) = length words - 1 - startIndex.
Proof.
  rewrite bigrams_eq_zip. split; [done|apply length_zip_with_drop].
Qed.

(** X6.  The candidates of [ExtractCities] are the words of the stripped
    sentence from [start] on, followed by the bigrams of these words. *)
Theorem ExtractCities_candidates in_ :
  let start := find_start (Stems in_) in
  let words := words_of in_ in
  candidates in_
  = drop start words
    ++ zip_with joined (drop start words) (drop (S start) words).
Proof. apply candidates_eq. Qed.

(** X7.  With the store answering, [ExtractCities] returns no error and
    exactly the gazetteer entries of country US whose name is one of the
    candidates, each as often as the table holds it, every entry before
    all entries with a shorter or equal name. *)
Theorem ExtractCities_result in_ db :
  healthy db ->
  exists rows,
    fst (ExtractCities in_ db) = (rows, None)
    /\ rows ≡ₚ filter (fun c => CountryCode c = "US"
                                /\ Name c ∈ candidates in_) (cities db)
    /\ StronglySorted sqlx.longer_first rows.
Proof.
  intros (Hq & Hs & Hc).
  exists (sqlx.select_cities (candidates in_) (cities db)).
  split; [|split].
  - rewrite ExtractCities_eq, Hq, Hs, Hc. simpl.
    by destruct (sqlx.select_cities _ _).
  - apply merge_sort_Permutation.
  - apply select_cities_sorted.
Qed.

Lemma ExtractCities_result_witness :
  exists rows,
    fst (ExtractCities sample_new_york sample_places) = (rows, None)
    /\ rows ≡ₚ filter (fun c => CountryCode c = "US"
                                /\ Name c ∈ candidates sample_new_york)
                (cities sample_places)
    /\ StronglySorted sqlx.longer_first rows.
Proof.
  apply (ExtractCities_result sample_new_york sample_places).
  repeat split; reflexivity.
Defined.

(** X8.  On every path [ExtractCities] sends exactly one statement and
    leaves the tables as they are: the selection for its candidates, or,
    when there is no candidate, the empty statement that [sqlx.In] leaves
    behind.  When it returns an error it returns no city. *)
Theorem ExtractCities_one_query in_ db :
  snd (ExtractCities in_ db)
  = log (match candidates in_ with
         | [] => EmptyStatement
         | _ :: _ => SelectCities (candidates in_)
         end) db
  /\ (snd (fst (ExtractCities in_ db)) <> None ->
      fst (fst (ExtractCities in_ db)) = []).
Proof.
  rewrite ExtractCities_eq. simpl. split.
  - by destruct (candidates in_).
  - destruct (query_fault db); [done|].
    destruct (sqlx.select_cities _ _) as [|row rows];
      [|destruct (scan_fault db); [done|]];
      by destruct (close_fault db).
Qed.

(** X9.  No candidate of [ExtractCities] contains a byte other than a
    letter, a digit, an underscore or the space that joins a bigram:
    punctuation never reaches the gazetteer. *)
Theorem ExtractCities_candidate_bytes in_ :
  Forall (fun cand =>
            allBytes (fun c => isWordByte c || Ascii.eqb c " ") cand = true)
    (candidates in_).
Proof.
  assert (Forall (fun w => allBytes isWordByte w = true) (words_of in_)) as Hw.
  { unfold words_of, strings.Fields.
    apply Fields_from_allBytes; [done|].
    eapply allBytes_weaken; [|apply stripNonWords_bytes].
    apply isWordOrSpace_split. }
  rewrite candidates_eq.
  set (start := find_start (Stems in_)).
  assert (forall l, Forall (fun w => allBytes isWordByte w = true) l ->
            Forall (fun cand =>
              allBytes (fun c => isWordByte c || Ascii.eqb c " ") cand = true) l)
    as Hweak.
  { intros l Hl. eapply Forall_impl; [exact Hl|].
    intros w. apply allBytes_weaken. by intros c ->. }
  apply Forall_app. split.
  - apply Hweak. by apply Forall_drop.
  - pose proof (Forall_drop _ start _ Hw) as H1.
    pose proof (Forall_drop _ (S start) _ Hw) as H2.
    revert H2. generalize (drop (S start) (words_of in_)).
    induction H1 as [|a l1 Ha _ IH]; intros l2 H2; simpl; [constructor|].
    destruct H2 as [|b l2 Hb H2]; constructor; [|by apply IH].
    set (q := fun c => isWordByte c || Ascii.eqb c " ").
    assert (forall w, allBytes isWordByte w = true -> allBytes q w = true)
      as Hq.
    { intros w. apply allBytes_weaken. intros c Hc. unfold q.
      by rewrite Hc. }
    unfold joined. rewrite allBytes_app.
    change (" " +:+ b) with (String " " b). cbn [allBytes].
    by rewrite (Hq a Ha), (Hq b Hb).
Qed.

(* ===================================================================== *)
(** ** Further facts about [getContextObject]                             *)
(* ===================================================================== *)

(** X10.  The antecedent comes from the first turn of the user, in the
    order of the store, that has an object: turns of other users and
    turns without an object before it are passed over, turns after it are
    not looked at.  It is the last element of the requested column. *)
Theorem getContextObject_first_qualifying u si c db skipped r rest :
  query_fault db = None -> scan_fault db = None ->
  inputs db = skipped ++ r :: rest ->
  Forall (fun r' => sqlx.qualifying (ID u) r' = false) skipped ->
  sqlx.qualifying (ID u) r = true ->
  fst (getContextObject (Some u) si (cat_column c) db)
  = (Last (cat_row c r), None).
Proof.
  intros Hq Hs Hin Hsk Hr.
  unfold getContextObject, bind, sqlx.Get.
  rewrite Hq, column_cat, Hin, filter_app.
  rewrite (filter_none _ skipped).
  - simpl. rewrite filter_cons_True by done. by rewrite Hs.
  - intros r' Hr'. rewrite Forall_forall in Hsk.
    rewrite (Hsk r' Hr'). discriminate.
Qed.

Lemma getContextObject_first_qualifying_witness :
  fst (getContextObject (Some {| ID := 1 |}) (sample_si [] [] [] [] [])
         (cat_column CObjects) sample_turns)
  = ("the red shirt", None).
Proof.
  apply (getContextObject_first_qualifying {| ID := 1 |} _ CObjects
           sample_turns
           [ {| userid := 2; objects := ["a car"]; actors := []; times := [];
                places := ["Oslo"] |};
             {| userid := 1; objects := []; actors := ["bob"]; times := [];
                places := ["Lima"] |} ]
           {| userid := 1; objects := ["a coat"; "the red shirt"];
              actors := []; times := []; places := ["Paris"] |}
           [ {| userid := 1; objects := ["a hat"]; actors := []; times := [];
                places := ["Rome"] |} ]).
  - reflexivity.
  - reflexivity.
  - reflexivity.
  - repeat constructor.
  - reflexivity.
Defined.

(** X11.  With a user, [getContextObject] sends exactly one statement on
    every path, whatever the column asked for, and leaves the tables as
    they are; whenever it returns an error, with or without a user, the
    string it returns is empty. *)
Theorem getContextObject_one_query u si datatype db :
  snd (getContextObject (Some u) si datatype db)
  = log (SelectInput datatype (ID u)) db
  /\ (forall ou, snd (fst (getContextObject ou si datatype db)) <> None ->
        fst (fst (getContextObject ou si datatype db)) = "").
Proof.
  assert (forall v, exists r,
            getContextObject (Some v) si datatype db
            = (r, log (SelectInput datatype (ID v)) db)
            /\ (snd r <> None -> fst r = "")) as H.
  { intros v. unfold getContextObject, bind, sqlx.Get.
    destruct (query_fault db); [by eexists|].
    destruct (sqlx.column datatype); [|by eexists].
    destruct (filter _ (inputs db)); [by eexists|].
    destruct (scan_fault db); [by eexists|].
    eexists. split; [done|]. simpl. done. }
  split.
  - by destruct (H u) as (r & -> & _).
  - intros [v|]; [|done].
    by destruct (H v) as (r & -> & Hr).
Qed.

(* ===================================================================== *)
(** ** Further facts about [addContext]                                   *)
(* ===================================================================== *)

Lemma replace_all_lookup w ctx (l : StringSlice) i :
  replace_all w ctx l !! i
  = (fun o => if decide (o = w) then ctx else o) <$> (l !! i).
Proof.
  revert i. induction l as [|a l IH]; intros [|i]; simpl; done.
Qed.

(** X12.  After the loop that rewrites [w] by an antecedent other than
    [w] itself, no element of the list equals [w], and running the loop
    once more changes nothing. *)
Theorem rewrite_eliminates w ctx (l : StringSlice) :
  ctx <> w ->
  ~ In w (rewrite w ctx l)
  /\ rewrite w ctx (rewrite w ctx l) = rewrite w ctx l.
Proof.
  intros Hne. rewrite !rewrite_replace_all. unfold replace_all.
  split.
  - rewrite in_map_iff. intros (o & Ho & _).
    destruct (decide (o = w)); congruence.
  - rewrite map_map. apply map_ext. intros o.
    destruct (decide (o = w)) as [->|Ho].
    + by destruct (decide (ctx = w)).
    + by destruct (decide (o = w)).
Qed.

Lemma rewrite_eliminates_witness :
  ~ In "it" (rewrite "it" "the red shirt" ["it"; "a bag"; "it"])
  /\ rewrite "it" "the red shirt"
       (rewrite "it" "the red shirt" ["it"; "a bag"; "it"])
     = rewrite "it" "the red shirt" ["it"; "a bag"; "it"].
Proof. apply rewrite_eliminates. discriminate. Defined.

Lemma same_frame_refl m : same_frame m m.
Proof. by repeat split. Qed.

Lemma same_frame_trans m1 m2 m3 :
  same_frame m1 m2 -> same_frame m2 m3 -> same_frame m1 m3.
Proof.
  unfold same_frame. intros H12 H23.
  destruct H12 as (?&?&?&?&?&?&?&?), H23 as (?&?&?&?&?&?&?&?).
  repeat split; congruence.
Qed.

Lemma same_frame_set c l m : same_frame m (cat_set c l m).
Proof. by destruct c; repeat split. Qed.

Lemma same_tables_refl db : same_tables db db.
Proof. by repeat split. Qed.

Lemma same_tables_log q db : same_tables db (log q db).
Proof. by repeat split. Qed.

Section ResolverMoreFacts.

Variables ObjectI ActorI TimeI PlaceI : Z.
Variable nlp_Pronouns : gmap string Z.

Local Abbreviation category_of :=
  (category_of ObjectI ActorI TimeI PlaceI nlp_Pronouns).
Local Abbreviation addContext_body :=
  (addContext_body ObjectI ActorI TimeI PlaceI nlp_Pronouns).
Local Abbreviation addContext_loop :=
  (addContext_loop ObjectI ActorI TimeI PlaceI nlp_Pronouns).
Local Abbreviation addContext :=
  (addContext ObjectI ActorI TimeI PlaceI nlp_Pronouns).
Local Abbreviation resolved_prefix :=
  (resolved_prefix ObjectI ActorI TimeI PlaceI nlp_Pronouns).
Local Abbreviation body_category :=
  (addContext_body_category ObjectI ActorI TimeI PlaceI nlp_Pronouns).
Local Abbreviation loop_app :=
  (addContext_loop_app ObjectI ActorI TimeI PlaceI nlp_Pronouns).

(** What a round does, in one statement: it returns the message as it
    is, or it rewrites one list by a non-empty antecedent; it sends no
    statement, or the one of a lookup. *)
Lemma addContext_body_cases w m db :
  (exists e, fst (addContext_body w m db) = Return m e
             /\ (snd (addContext_body w m db) = db
                 \/ exists c u, MsgUser m = Some u
                      /\ snd (addContext_body w m db)
                         = log (SelectInput (cat_column c) (ID u)) db))
  \/ (exists c u ctx,
        category_of w = Some c /\ MsgUser m = Some u /\ ctx <> ""
        /\ fst (lookup c m db) = (ctx, None)
        /\ addContext_body w m db
           = (Continue
                (cat_set c
                   (replace_all w ctx (cat_list c (MsgStructuredInput m))) m),
              log (SelectInput (cat_column c) (ID u)) db)).
Proof.
  rewrite body_category.
  destruct (category_of w) as [c|]; [|left; eexists; split; [done|by left]].
  rewrite resolve_in_lookup.
  destruct (MsgUser m) as [u|] eqn:Hu.
  - pose proof (lookup_handle c m u db Hu) as Hh.
    destruct (lookup c m db) as [[ctx [e|]] db'] eqn:Hl; simpl in Hh; subst db'.
    + left. eexists. split; [done|]. right. eauto.
    + destruct (decide (ctx = "")).
      * left. eexists. split; [done|]. right. eauto.
      * right. exists c, u, ctx. rewrite rewrite_replace_all, Hl. done.
  - left. unfold lookup. rewrite Hu. simpl. eexists. split; [done|by left].
Qed.

Lemma addContext_loop_frame ws : forall m db,
  same_frame m (fst (fst (addContext_loop ws m db))).
Proof.
  induction ws as [|w ws IH]; intros m db; cbn [dt.addContext_loop].
  - apply same_frame_refl.
  - unfold bind.
    destruct (addContext_body_cases w m db)
      as [(e & Hf & _)|(c & u & ctx & _ & _ & _ & _ & Hb)].
    + destruct (addContext_body w m db) as [f db']. simpl in Hf. subst f.
      apply same_frame_refl.
    + rewrite Hb. eapply same_frame_trans; [apply same_frame_set|apply IH].
Qed.

(** X13.  On every path [addContext] leaves the sentence, the user, the
    stems, the route, the package, the sentence fields and the pronoun
    set of the message as they were. *)
Theorem addContext_frame m db :
  same_frame m (fst (fst (addContext m db))).
Proof. apply addContext_loop_frame. Qed.

Lemma addContext_loop_keeps c i e ws : forall m db,
  ~ In e ws ->
  cat_list c (MsgStructuredInput m) !! i = Some e ->
  cat_list c (MsgStructuredInput (fst (fst (addContext_loop ws m db)))) !! i
  = Some e.
Proof.
  induction ws as [|w ws IH]; intros m db Hnot He; cbn [dt.addContext_loop].
  - done.
  - unfold bind.
    destruct (addContext_body_cases w m db)
      as [(e' & Hf & _)|(c0 & u & ctx & _ & _ & _ & _ & Hb)].
    + destruct (addContext_body w m db) as [f db']. simpl in Hf. by subst f.
    + rewrite Hb. apply IH; [simpl in Hnot; tauto|].
      destruct (decide (c = c0)) as [->|Hc].
      * rewrite cat_list_set_same, replace_all_lookup, He. simpl.
        destruct (decide (e = w)) as [->|]; [|done].
        exfalso. apply Hnot. by left.
      * by rewrite cat_list_set_other.
Qed.

(** X14.  A mention that is none of the pronouns of the message is never
    rewritten: it is found at its index, in its list, in the message
    that [addContext] returns. *)
Theorem addContext_keeps_mentions m db c i e :
  cat_list c (MsgStructuredInput m) !! i = Some e ->
  ~ In e (Pronouns (MsgStructuredInput m)) ->
  cat_list c (MsgStructuredInput (fst (fst (addContext m db)))) !! i = Some e.
Proof. intros He Hnot. by apply addContext_loop_keeps. Qed.

Lemma addContext_loop_queries ws : forall m db,
  exists qs,
    issued (snd (addContext_loop ws m db)) = issued db ++ qs
    /\ length qs <= length ws
    /\ same_tables db (snd (addContext_loop ws m db))
    /\ Forall (fun q => exists c u, MsgUser m = Some u
                         /\ q = SelectInput (cat_column c) (ID u)) qs.
Proof.
  induction ws as [|w ws IH]; intros m db; cbn [dt.addContext_loop].
  - exists []. simpl. rewrite app_nil_r.
    split; [done|]. split; [done|]. split; [apply same_tables_refl|done].
  - unfold bind.
    destruct (addContext_body_cases w m db)
      as [(e & Hf & [Hd|(c & u & Hu & Hd)])
         |(c & u & ctx & _ & Hu & _ & _ & Hb)].
    + destruct (addContext_body w m db) as [f db']. simpl in *. subst f db'.
      exists []. simpl. rewrite app_nil_r.
      split; [done|]. split; [lia|]. split; [apply same_tables_refl|done].
    + destruct (addContext_body w m db) as [f db']. simpl in *. subst f db'.
      exists [SelectInput (cat_column c) (ID u)]. simpl.
      split; [done|]. split; [lia|]. split; [apply same_tables_log|].
      repeat constructor. eauto.
    + rewrite Hb.
      destruct (IH (cat_set c
                      (replace_all w ctx (cat_list c (MsgStructuredInput m))) m)
                   (log (SelectInput (cat_column c) (ID u)) db))
        as (qs & Hi & Hl & Ht & Hq).
      exists (SelectInput (cat_column c) (ID u) :: qs).
      split; [|split; [|split]].
      * rewrite Hi. simpl. by rewrite <- app_assoc.
      * simpl. lia.
      * destruct Ht as (?&?&?). by repeat split.
      * constructor; [eauto|].
        eapply Forall_impl; [exact Hq|].
        intros q (c' & u' & Hu' & ->). rewrite MsgUser_set in Hu'. eauto.
Qed.

(** X15.  [addContext] only reads: the tables and the faults of the
    store are as before, and the statements it sent are lookups for the
    user of the message, at most one for each pronoun. *)
Theorem addContext_queries m db :
  exists qs,
    issued (snd (addContext m db)) = issued db ++ qs
    /\ length qs <= length (Pronouns (MsgStructuredInput m))
    /\ same_tables db (snd (addContext m db))
    /\ Forall (fun q => exists c u, MsgUser m = Some u
                         /\ q = SelectInput (cat_column c) (ID u)) qs.
Proof. apply addContext_loop_queries. Qed.

(** C6.  When the pass of [addContext], having gone through the
    pronouns [pre], is at a pronoun [w] of category [c] whose lookup
    gives a non-empty antecedent [ctx], the round replaces in the list of
    [c] exactly the elements equal to [w] by [ctx] and leaves the other
    three lists, the pronoun set and the rest of the message as they
    were; [addContext] goes on from that message with the later pronouns
    and returns it when there is none; and unless [ctx] is itself a later
    pronoun, every place that held [w] holds [ctx] in the message that
    [addContext] returns. *)
Theorem addContext_rewrites_category m db pre w post c ctx m1 db1 :
  Pronouns (MsgStructuredInput m) = pre ++ w :: post ->
  resolved_prefix pre m db = Some (m1, db1) ->
  category_of w = Some c ->
  fst (lookup c m1 db1) = (ctx, None) ->
  ctx <> "" ->
  exists m2,
    cat_list c (MsgStructuredInput m2)
    = replace_all w ctx (cat_list c (MsgStructuredInput m1))
    /\ (forall c', c' <> c ->
          cat_list c' (MsgStructuredInput m2)
          = cat_list c' (MsgStructuredInput m1))
    /\ Pronouns (MsgStructuredInput m2) = Pronouns (MsgStructuredInput m1)
    /\ same_frame m1 m2
    /\ addContext m db = addContext_loop post m2 (snd (lookup c m1 db1))
    /\ (post = [] ->
        addContext m db = ((m2, None), snd (lookup c m1 db1)))
    /\ (~ In ctx post ->
        forall i, cat_list c (MsgStructuredInput m1) !! i = Some w ->
          cat_list c (MsgStructuredInput (fst (fst (addContext m db)))) !! i
          = Some ctx).
Proof.
  intros Hp Hpre Hc Hl Hne.
  destruct (addContext_body_rewrites ObjectI ActorI TimeI PlaceI
              nlp_Pronouns w c ctx m1 db1 Hc Hl Hne)
    as (m2 & Hb & Hlist & Hother & Hpron & Hloop).
  assert (addContext m db = addContext_loop post m2 (snd (lookup c m1 db1)))
    as Heq.
  { unfold dt.addContext. rewrite Hp, (loop_app pre _ _ _ _ _ Hpre).
    apply Hloop. }
  assert (same_frame m1 m2) as Hframe.
  { destruct (addContext_body_cases w m1 db1)
      as [(e & Hf & _)|(c0 & u & ctx0 & _ & _ & _ & _ & Hb0)].
    - rewrite Hb in Hf. discriminate Hf.
    - rewrite Hb in Hb0. injection Hb0 as -> _. apply same_frame_set. }
  exists m2. repeat split; try done.
  - by destruct Hframe as (?&?&?&?&?&?&?&?).
  - by destruct Hframe as (?&?&?&?&?&?&?&?).
  - by destruct Hframe as (?&?&?&?&?&?&?&?).
  - by destruct Hframe as (?&?&?&?&?&?&?&?).
  - by destruct Hframe as (?&?&?&?&?&?&?&?).
  - by destruct Hframe as (?&?&?&?&?&?&?&?).
  - by destruct Hframe as (?&?&?&?&?&?&?&?).
  - intros ->. by rewrite Heq.
  - intros Hnot i Hi. rewrite Heq.
    apply addContext_loop_keeps; [done|].
    rewrite Hlist, replace_all_lookup, Hi. simpl.
    by destruct (decide (w = w)).
Qed.

(** X16.  When the pass, having gone through the pronouns [pre], is at a
    pronoun whose lookup fails, [addContext] returns the error of the
    lookup as it is, with the message as the rounds for [pre] left it. *)
Theorem addContext_lookup_error m db pre w post c m1 db1 s e :
  Pronouns (MsgStructuredInput m) = pre ++ w :: post ->
  resolved_prefix pre m db = Some (m1, db1) ->
  category_of w = Some c ->
  fst (lookup c m1 db1) = (s, Some e) ->
  addContext m db = ((m1, Some e), snd (lookup c m1 db1)).
Proof.
  intros Hp Hpre Hc Hl. unfold dt.addContext.
  rewrite Hp, (loop_app pre _ _ _ _ _ Hpre).
  cbn [dt.addContext_loop]. unfold bind.
  rewrite body_category, Hc, resolve_in_lookup.
  destruct (lookup c m1 db1) as [[ctx e'] db']. simpl in *.
  by injection Hl as -> ->.
Qed.

Lemma lookup_first_turn c m u db r :
  MsgUser m = Some u ->
  query_fault db = None -> scan_fault db = None ->
  first_turn (ID u) db = Some r ->
  lookup c m db
  = ((Last (cat_row c r), None), log (SelectInput (cat_column c) (ID u)) db).
Proof.
  intros Hu Hq Hs Hr. unfold lookup, getContextObject, bind, sqlx.Get.
  unfold first_turn in Hr. rewrite Hu, Hq, column_cat.
  destruct (filter _ (inputs db)) as [|r' rest]; [done|].
  simpl in Hr. injection Hr as ->. by rewrite Hs.
Qed.

Lemma never_fails_now db :
  never_fails db -> query_fault db = None /\ scan_fault db = None.
Proof. intros H. by apply (H (length (issued db))). Qed.

Lemma never_fails_log q db : never_fails db -> never_fails (log q db).
Proof.
  intros H k Hk. simpl in *. rewrite length_app in Hk. simpl in Hk.
  apply H. lia.
Qed.

Lemma addContext_loop_resolves u r ws : forall m db,
  MsgUser m = Some u ->
  never_fails db ->
  first_turn (ID u) db = Some r ->
  Forall (fun w => exists c, category_of w = Some c
                             /\ Last (cat_row c r) <> "") ws ->
  exists m',
    fst (addContext_loop ws m db) = (m', None)
    /\ forall c, cat_list c (MsgStructuredInput m')
                 = resolve_list category_of (fun c => Last (cat_row c r)) c ws
                     (cat_list c (MsgStructuredInput m)).
Proof.
  induction ws as [|w ws IH]; intros m db Hu Hnf Hr Hws;
    cbn [dt.addContext_loop].
  - by exists m.
  - apply Forall_cons in Hws as [(c & Hc & Hne) Hws].
    destruct (never_fails_now db Hnf) as [Hq Hs].
    unfold bind. rewrite body_category, Hc, resolve_in_lookup.
    rewrite (lookup_first_turn c m u db r Hu Hq Hs Hr).
    destruct (decide (Last (cat_row c r) = "")); [done|].
    destruct (IH (cat_set c
                    (rewrite w (Last (cat_row c r))
                       (cat_list c (MsgStructuredInput m))) m)
                 (log (SelectInput (cat_column c) (ID u)) db))
      as (m' & Hm' & Hl); try done.
    { by rewrite MsgUser_set. }
    { by apply never_fails_log. }
    exists m'. split; [done|].
    intros c'. rewrite Hl. unfold resolve_list. simpl. f_equal.
    destruct (decide (c' = c)) as [->|Hcc].
    + rewrite cat_list_set_same, rewrite_replace_all.
      by destruct (decide (category_of w = Some c)).
    + rewrite cat_list_set_other by done.
      destruct (decide (category_of w = Some c')) as [Hc'|]; [|done].
      congruence.
Qed.

(** X17.  When the store answers every statement of the pass, the user
    has a turn with an object, and every pronoun of the message has a
    category whose column in that turn ends in a non-empty mention,
    [addContext] returns no error, and each list is the list as it was
    with every pronoun of its category replaced, in the order of the
    pronouns, by that mention. *)
Theorem addContext_resolves_all m db u r :
  MsgUser m = Some u ->
  never_fails db ->
  first_turn (ID u) db = Some r ->
  Forall (fun w => exists c, category_of w = Some c
                             /\ Last (cat_row c r) <> "")
    (Pronouns (MsgStructuredInput m)) ->
  exists m',
    fst (addContext m db) = (m', None)
    /\ forall c, cat_list c (MsgStructuredInput m')
                 = resolve_list category_of (fun c => Last (cat_row c r)) c
                     (Pronouns (MsgStructuredInput m))
                     (cat_list c (MsgStructuredInput m)).
Proof. apply addContext_loop_resolves. Qed.

End ResolverMoreFacts.

Lemma addContext_keeps_mentions_witness :
  cat_list CObjects
    (MsgStructuredInput
       (fst (fst (sample_addContext sample_both sample_history)))) !! 1
  = Some "a bag".
Proof.
  apply (addContext_keeps_mentions 3 2 4 5 sample_table
           sample_both sample_history CObjects 1 "a bag").
  - reflexivity.
  - simpl. intros [H|[H|[]]]; discriminate H.
Defined.

Lemma addContext_lookup_error_witness :
  sample_addContext sample_turn sample_flaky
  = ((sample_turn_it, Some (driver_error "connection reset")),
     snd (lookup CTimes sample_turn_it
            (log (SelectInput "objects" 1) sample_flaky))).
Proof.
  apply (addContext_lookup_error 3 2 4 5 sample_table
           sample_turn sample_flaky ["it"] "then" ["there"] CTimes
           sample_turn_it (log (SelectInput "objects" 1) sample_flaky) "").
  - reflexivity.
  - vm_compute. reflexivity.
  - vm_compute. reflexivity.
  - vm_compute. reflexivity.
Defined.

Lemma addContext_rewrites_category_witness :
  exists m2,
    cat_list CPlaces (MsgStructuredInput m2)
    = replace_all "there" "Paris"
        (cat_list CPlaces (MsgStructuredInput sample_both_it))
    /\ (forall c', c' <> CPlaces ->
          cat_list c' (MsgStructuredInput m2)
          = cat_list c' (MsgStructuredInput sample_both_it))
    /\ Pronouns (MsgStructuredInput m2)
       = Pronouns (MsgStructuredInput sample_both_it)
    /\ same_frame sample_both_it m2
    /\ sample_addContext sample_both sample_history
       = addContext_loop 3 2 4 5 sample_table [] m2
           (snd (lookup CPlaces sample_both_it
                   (log (SelectInput "objects" 1) sample_history)))
    /\ (@nil string = [] ->
        sample_addContext sample_both sample_history
        = ((m2, None),
           snd (lookup CPlaces sample_both_it
                  (log (SelectInput "objects" 1) sample_history))))
    /\ (~ In "Paris" [] ->
        forall i,
          cat_list CPlaces (MsgStructuredInput sample_both_it) !! i
          = Some "there" ->
          cat_list CPlaces
            (MsgStructuredInput
               (fst (fst (sample_addContext sample_both sample_history))))
            !! i
          = Some "Paris").
Proof.
  apply (addContext_rewrites_category 3 2 4 5 sample_table
           sample_both sample_history ["it"] "there" [] CPlaces "Paris"
           sample_both_it (log (SelectInput "objects" 1) sample_history)).
  - reflexivity.
  - vm_compute. reflexivity.
  - vm_compute. reflexivity.
  - vm_compute. reflexivity.
  - discriminate.
Defined.

(** C3.  For a user without a qualifying turn the lookup of the first
    pronoun yields the empty string, yet [addContext] does not end the
    pass silently: the [sql.ErrNoRows] that comes with the empty string
    is returned as the error of [addContext].  So it is for a user with
    no turn at all, and for a user whose only turn has no object. *)
Theorem addContext_no_history_error :
  fst (lookup CObjects sample_turn sample_newcomer) = ("", Some ErrNoRows)
  /\ fst (sample_addContext sample_turn sample_newcomer)
     = (sample_turn, Some ErrNoRows)
  /\ fst (lookup CObjects sample_turn sample_objectless)
     = ("", Some ErrNoRows)
  /\ fst (sample_addContext sample_turn sample_objectless)
     = (sample_turn, Some ErrNoRows).
Proof. repeat split; vm_compute; reflexivity. Qed.

Lemma addContext_resolves_all_witness :
  exists m',
    fst (sample_addContext sample_both sample_history) = (m', None)
    /\ forall c,
         cat_list c (MsgStructuredInput m')
         = resolve_list (category_of 3 2 4 5 sample_table)
             (fun c => Last (cat_row c
                {| userid := 1; objects := ["the red shirt"]; actors := [];
                   times := []; places := ["Paris"] |})) c
             (Pronouns (MsgStructuredInput sample_both))
             (cat_list c (MsgStructuredInput sample_both)).
Proof.
  apply (addContext_resolves_all 3 2 4 5 sample_table
           sample_both sample_history {| ID := 1 |}).
  - reflexivity.
  - intros k _. split; reflexivity.
  - reflexivity.
  - constructor; [|constructor; [|constructor]].
    + exists CObjects. split; [vm_compute; reflexivity|discriminate].
    + exists CPlaces. split; [vm_compute; reflexivity|discriminate].
Defined.

(* ===================================================================== *)
(** ** Facts about [ExtractCount]                                         *)
(* ===================================================================== *)

Section CountFacts.

Lemma findNum_no_digit s :
  allBytes (fun c => negb (strconv.isDigit c)) s = true -> findNum s = "".
Proof.
  induction s as [|c s IH]; simpl; [done|].
  intros H. apply andb_prop in H as [Hc Hs].
  destruct (strconv.isDigit c); [done|]. by apply IH.
Qed.

Lemma takeDigits_app ds rest :
  allBytes strconv.isDigit ds = true -> startsWithDigit rest = false ->
  takeDigits (ds +:+ rest) = ds.
Proof.
  intros Hds Hrest. induction ds as [|c ds IH]; simpl in *.
  - destruct rest as [|c rest]; simpl in *; [done|]. by rewrite Hrest.
  - apply andb_prop in Hds as [Hc Hds]. rewrite Hc. by rewrite IH.
Qed.

Lemma findNum_digits ds rest :
  allBytes strconv.isDigit ds = true -> ds <> "" ->
  startsWithDigit rest = false ->
  findNum (ds +:+ rest) = ds.
Proof.
  intros Hds Hne Hrest. destruct ds as [|c ds]; [done|]. simpl in *.
  apply andb_prop in Hds as [Hc Hds]. rewrite Hc.
  by rewrite takeDigits_app.
Qed.

Lemma append_empty_r s : s +:+ "" = s.
Proof.
  induction s as [|c s IH]; [done|].
  change (String c (s +:+ "") = String c s). by rewrite IH.
Qed.

Lemma findNum_self ds :
  allBytes strconv.isDigit ds = true -> ds <> "" -> findNum ds = ds.
Proof.
  intros Hds Hne. rewrite <- (append_empty_r ds) at 1.
  by apply findNum_digits.
Qed.

Lemma findNum_skip pre t :
  allBytes (fun c => negb (strconv.isDigit c)) pre = true ->
  findNum (pre +:+ t) = findNum t.
Proof.
  induction pre as [|c pre IH]; simpl; [done|].
  intros H. apply andb_prop in H as [Hc Hs].
  destruct (strconv.isDigit c); [done|]. by apply IH.
Qed.

Lemma digits_value_total ds : forall n,
  allBytes strconv.isDigit ds = true -> is_Some (strconv.digits_value ds n).
Proof.
  induction ds as [|c ds IH]; intros n H; simpl in *; [by eexists|].
  apply andb_prop in H as [Hc Hds]. rewrite Hc. by apply IH.
Qed.

End CountFacts.

(** X18.  [ExtractCount] reads the first run of digits of the text and
    nothing else: what stands before it (a sign, a currency symbol) and
    what follows it (a decimal part, a second number) does not count. *)
Theorem ExtractCount_first_run pre ds rest :
  allBytes (fun c => negb (strconv.isDigit c)) pre = true ->
  allBytes strconv.isDigit ds = true -> ds <> "" ->
  startsWithDigit rest = false ->
  ExtractCount (pre +:+ ds +:+ rest) = ExtractCount ds.
Proof.
  intros Hpre Hds Hne Hrest. unfold ExtractCount.
  by rewrite findNum_skip, findNum_digits, findNum_self.
Qed.

Lemma ExtractCount_first_run_witness :
  ExtractCount ("Order -" +:+ "12" +:+ ".5 or 30")
  = ExtractCount "12".
Proof.
  apply ExtractCount_first_run; [reflexivity|reflexivity|discriminate
                                |reflexivity].
Defined.

(** X19.  A text without a digit gives the null count, zero and not
    valid. *)
Theorem ExtractCount_no_digit s :
  allBytes (fun c => negb (strconv.isDigit c)) s = true ->
  ExtractCount s = {| Int64 := 0; Valid := false |}.
Proof. intros H. unfold ExtractCount. by rewrite findNum_no_digit. Qed.

Lemma ExtractCount_no_digit_witness :
  ExtractCount "as many as you have" = {| Int64 := 0; Valid := false |}.
Proof. apply ExtractCount_no_digit. reflexivity. Defined.

(** X20.  For a decimal number [v]: below 2^63 the count is [v]; from
    2^63 to 2^64 - 1 the count is valid but negative, [v - 2^64]; from
    2^64 on the count is null. *)
Theorem ExtractCount_digits ds v :
  allBytes strconv.isDigit ds = true -> ds <> "" ->
  strconv.digits_value ds 0 = Some v ->
  ExtractCount ds
  = if (v <? 2 ^ 63)%N then {| Int64 := Z.of_N v; Valid := true |}
    else if (v <? 2 ^ 64)%N
         then {| Int64 := (Z.of_N v - 2 ^ 64)%Z; Valid := true |}
         else {| Int64 := 0; Valid := false |}.
Proof.
  intros Hds Hne Hv. unfold ExtractCount.
  rewrite findNum_self by done.
  destruct ds as [|c ds]; [done|].
  cbn [String.length Nat.eqb].
  unfold strconv.ParseUint. rewrite Hv.
  unfold strconv.maxUint64, strconv.int64_of_uint64.
  assert (2 ^ 63 < 2 ^ 64)%N as Hpow by reflexivity.
  revert Hpow. generalize (2 ^ 63)%N (2 ^ 64)%N. intros a b Hab.
  destruct (N.leb_spec v (b - 1)); cbv beta iota;
    destruct (N.ltb_spec v a); destruct (N.ltb_spec v b); try done; lia.
Qed.

Lemma ExtractCount_digits_witness :
  ExtractCount "18446744073709551615" = {| Int64 := (-1)%Z; Valid := true |}.
Proof.
  apply (ExtractCount_digits "18446744073709551615" 18446744073709551615%N).
  - reflexivity.
  - discriminate.
  - reflexivity.
Defined.

(* ===================================================================== *)
(** ** Facts about [ExtractYesNo]                                         *)
(* ===================================================================== *)

Section YesNoFacts.

Variables yes no : gmap string bool.

Local Abbreviation ExtractYesNo_loop := (ExtractYesNo_loop yes no).
Local Abbreviation ExtractYesNo := (ExtractYesNo yes no).

Lemma append_assoc s t u : (s +:+ t) +:+ u = s +:+ (t +:+ u).
Proof.
  induction s as [|c s IH]; [done|].
  change (String c ((s +:+ t) +:+ u) = String c (s +:+ (t +:+ u))).
  by rewrite IH.
Qed.

Lemma Fields_from_app_space a b : forall cur,
  strings.Fields_from cur (a +:+ String " " b)
  = strings.Fields_from cur a ++ strings.Fields b.
Proof.
  induction a as [|c a IH]; intros cur.
  - change ("" +:+ String " " b) with (String " " b). simpl.
    by destruct (strings.isEmpty cur).
  - change (String c a +:+ String " " b) with (String c (a +:+ String " " b)).
    cbn [strings.Fields_from].
    destruct (strings.isSpace c); [|apply IH].
    destruct (strings.isEmpty cur); rewrite IH; done.
Qed.

Lemma ExtractYesNo_loop_app l1 l2 :
  ExtractYesNo_loop (l1 ++ l2)
  = if BoolValid (ExtractYesNo_loop l1) then ExtractYesNo_loop l1
    else ExtractYesNo_loop l2.
Proof.
  induction l1 as [|w l1 IH]; simpl; [done|].
  destruct (default false (yes !! _)); [done|].
  destruct (default false (no !! _)); [done|]. apply IH.
Qed.

Lemma Fields_from_noSpace t : forall cur,
  noSpace t = true ->
  strings.Fields_from cur t
  = if strings.isEmpty (cur +:+ t) then [] else [cur +:+ t].
Proof.
  induction t as [|c t IH]; intros cur H; simpl in *.
  - by rewrite append_empty_r.
  - apply andb_prop in H as [Hc Ht].
    destruct (strings.isSpace c); [done|].
    rewrite IH by done. by rewrite append_assoc.
Qed.

Lemma noSpace_ToLower s : noSpace (strings.ToLower s) = noSpace s.
Proof.
  induction s as [|c s IH]; simpl; [done|]. by rewrite toLower_space, IH.
Qed.

Lemma noSpace_app s t : noSpace (s +:+ t) = noSpace s && noSpace t.
Proof.
  induction s as [|c s IH]; [done|].
  change (noSpace (String c (s +:+ t))
          = noSpace (String c s) && noSpace t).
  simpl. by rewrite IH, andb_assoc.
Qed.

Lemma toLower_cutset c :
  strings.inCutset yesNoCutset c = true -> strings.toLower c = c.
Proof.
  destruct c as [[] [] [] [] [] [] [] []]; (reflexivity || discriminate).
Qed.

Lemma ToLower_cutset p :
  allBytes (strings.inCutset yesNoCutset) p = true -> strings.ToLower p = p.
Proof.
  induction p as [|c p IH]; simpl; [done|].
  intros H. apply andb_prop in H as [Hc Hp].
  by rewrite toLower_cutset, IH.
Qed.

Lemma TrimRight_cutset cutset p :
  allBytes (strings.inCutset cutset) p = true ->
  strings.TrimRight p cutset = "".
Proof.
  induction p as [|c p IH]; simpl; [done|].
  intros H. apply andb_prop in H as [Hc Hp].
  by rewrite IH, Hc.
Qed.

Lemma TrimRight_app cutset t p :
  allBytes (strings.inCutset cutset) p = true ->
  strings.TrimRight (t +:+ p) cutset = strings.TrimRight t cutset.
Proof.
  intros Hp. induction t as [|c t IH].
  - change ("" +:+ p) with p. by rewrite TrimRight_cutset.
  - change (String c t +:+ p) with (String c (t +:+ p)).
    cbn [strings.TrimRight]. by rewrite IH.
Qed.

(** X21.  The first word that is an answer decides: when the text before
    a space holds an answer, what follows the space is not looked at;
    when it holds none, the answer is that of what follows. *)
Theorem ExtractYesNo_first_answer s1 s2 :
  ExtractYesNo (s1 +:+ " " +:+ s2)
  = if BoolValid (ExtractYesNo s1) then ExtractYesNo s1
    else ExtractYesNo s2.
Proof.
  unfold language.ExtractYesNo.
  change (" " +:+ s2) with (String " " s2).
  rewrite ToLower_app.
  change (strings.ToLower (String " " s2))
    with (String " " (strings.ToLower s2)).
  unfold strings.Fields at 1. rewrite Fields_from_app_space.
  apply ExtractYesNo_loop_app.
Qed.

(** X22.  Punctuation of the cutset that follows a single word is
    ignored: the answer is that of the word alone. *)
Theorem ExtractYesNo_trailing s p :
  noSpace s = true -> s <> "" ->
  allBytes (strings.inCutset yesNoCutset) p = true -> noSpace p = true ->
  ExtractYesNo (s +:+ p) = ExtractYesNo s.
Proof.
  intros Hs Hne Hp Hsp. unfold language.ExtractYesNo.
  rewrite ToLower_app, (ToLower_cutset p Hp).
  assert (strings.isEmpty (strings.ToLower s) = false) as Ht
    by (by destruct s).
  pose proof (noSpace_ToLower s) as Hts. rewrite Hs in Hts.
  set (t := strings.ToLower s) in *.
  unfold strings.Fields.
  rewrite (Fields_from_noSpace (t +:+ p) "")
    by (by rewrite noSpace_app, Hts, Hsp).
  rewrite (Fields_from_noSpace t "") by done.
  change ("" +:+ (t +:+ p)) with (t +:+ p). change ("" +:+ t) with t.
  rewrite Ht.
  assert (strings.isEmpty (t +:+ p) = false) as -> by (by destruct t).
  cbn [language.ExtractYesNo_loop].
  by rewrite (TrimRight_app _ t p Hp).
Qed.

(** Putting the text in lower case first changes nothing. *)
Lemma ExtractYesNo_lower s :
  ExtractYesNo (strings.ToLower s) = ExtractYesNo s.
Proof. unfold language.ExtractYesNo. by rewrite ToLower_idemp. Qed.

End YesNoFacts.

Lemma ExtractYesNo_trailing_witness :
  ExtractYesNo sample_yes sample_no ("Yes" +:+ "!!")
  = ExtractYesNo sample_yes sample_no "Yes".
Proof.
  apply ExtractYesNo_trailing;
    [reflexivity|discriminate|reflexivity|reflexivity].
Defined.

(* ===================================================================== *)
(** ** Facts about [GetLastRoute]                                         *)
(* ===================================================================== *)

Section RouteFacts.

#[local] Instance newer_first_total : Total newer_first.
Proof. intros a b. unfold newer_first. lia. Qed.

#[local] Instance newer_first_trans : Transitive newer_first.
Proof. intros a b c. unfold newer_first. lia. Qed.

Lemma select_routes_elem uid tbl r :
  r ∈ select_routes uid tbl <-> r ∈ tbl /\ msg_userid r = uid.
Proof.
  unfold select_routes.
  rewrite merge_sort_Permutation, list_elem_of_filter. tauto.
Qed.

Lemma select_routes_head uid tbl r rest :
  select_routes uid tbl = r :: rest ->
  r ∈ tbl /\ msg_userid r = uid
  /\ forall r', r' ∈ tbl -> msg_userid r' = uid ->
       (msg_createdat r' <= msg_createdat r)%N.
Proof.
  intros Hsel.
  pose proof (select_routes_elem uid tbl) as Helem.
  assert (StronglySorted newer_first (select_routes uid tbl)) as Hsorted
    by (apply StronglySorted_merge_sort; apply _).
  rewrite Hsel in Helem, Hsorted.
  destruct (proj1 (Helem r) ltac:(by left)) as [Hin Hu].
  split; [done|]. split; [done|].
  intros r' Hin' Hu'. pose proof (conj Hin' Hu') as Hboth.
  apply StronglySorted_inv in Hsorted as [_ Hall].
  rewrite Forall_forall in Hall.
  apply (proj2 (Helem r')) in Hboth.
  apply elem_of_cons in Hboth as [->|Hboth]; [reflexivity|].
  by apply Hall.
Qed.

End RouteFacts.

(** X23.  For a user without any message [GetLastRoute] returns the
    empty route and no error: the [sql.ErrNoRows] of the empty result is
    not passed on. *)
Theorem GetLastRoute_no_messages m u db :
  MsgUser m = Some u ->
  query_fault (handle db) = None ->
  Forall (fun r => msg_userid r <> ID u) (messages db) ->
  fst <$> GetLastRoute m db = Some ("", None).
Proof.
  intros Hu Hq Hnone. unfold GetLastRoute, GetRoute. rewrite Hu, Hq.
  unfold select_routes. rewrite filter_none; [done|].
  intros r Hr. rewrite Forall_forall in Hnone. by apply Hnone.
Qed.

Lemma GetLastRoute_no_messages_witness :
  fst <$> GetLastRoute sample_plain
            {| handle := sample_db [] [];
               messages := [ {| msg_userid := 2; msg_route := "weather";
                                msg_createdat := 30 |} ];
               route_queries := [] |}
  = Some ("", None).
Proof.
  apply (GetLastRoute_no_messages sample_plain {| ID := 1 |}).
  - reflexivity.
  - reflexivity.
  - repeat constructor. discriminate.
Defined.

(** X24.  With the store answering and a user who has a message,
    [GetLastRoute] returns no error and the route of a message of that
    user than which none of the user's messages is newer. *)
Theorem GetLastRoute_newest m u db r0 :
  MsgUser m = Some u ->
  query_fault (handle db) = None -> scan_fault (handle db) = None ->
  r0 ∈ messages db -> msg_userid r0 = ID u ->
  exists r,
    fst <$> GetLastRoute m db = Some (msg_route r, None)
    /\ r ∈ messages db /\ msg_userid r = ID u
    /\ forall r', r' ∈ messages db -> msg_userid r' = ID u ->
         (msg_createdat r' <= msg_createdat r)%N.
Proof.
  intros Hu Hq Hs Hin0 Hu0. unfold GetLastRoute, GetRoute. rewrite Hu, Hq.
  destruct (select_routes (ID u) (messages db)) as [|r rest] eqn:Hsel.
  - pose proof (proj2 (select_routes_elem (ID u) (messages db) r0)
                  (conj Hin0 Hu0)) as H.
    rewrite Hsel in H. by apply elem_of_nil in H.
  - exists r. rewrite Hs. split; [done|].
    by apply (select_routes_head _ _ _ rest).
Qed.

Lemma GetLastRoute_newest_witness :
  exists r,
    fst <$> GetLastRoute sample_plain sample_routes
    = Some (msg_route r, None)
    /\ r ∈ messages sample_routes /\ msg_userid r = 1%N
    /\ forall r', r' ∈ messages sample_routes -> msg_userid r' = 1%N ->
         (msg_createdat r' <= msg_createdat r)%N.
Proof.
  apply (GetLastRoute_newest sample_plain {| ID := 1 |} sample_routes
           {| msg_userid := 1; msg_route := "purchase";
              msg_createdat := 10 |}).
  - reflexivity.
  - reflexivity.
  - reflexivity.
  - by left.
  - reflexivity.
Defined.

(** X25.  [GetLastRoute] never returns [sql.ErrNoRows]: an error it
    returns is a failure of the store, and comes with the empty route. *)
Theorem GetLastRoute_error m db route e db' :
  GetLastRoute m db = Some ((route, Some e), db') ->
  route = "" /\ e <> ErrNoRows
  /\ exists msg, e = driver_error msg
       /\ (query_fault (handle db) = Some msg
           \/ scan_fault (handle db) = Some msg).
Proof.
  unfold GetLastRoute, GetRoute.
  destruct (MsgUser m) as [u|]; [|done].
  destruct (query_fault (handle db)) as [msg|] eqn:Hq; simpl.
  - intros [= <- <- _]. split; [done|]. split; [done|]. eauto.
  - destruct (select_routes _ _) as [|r rest]; simpl; [done|].
    destruct (scan_fault (handle db)) as [msg|] eqn:Hs; simpl; [|done].
    intros [= <- <- _]. split; [done|]. split; [done|]. eauto.
Qed.

Lemma GetLastRoute_error_witness :
  "" = ""
  /\ driver_error "connection refused" <> ErrNoRows
  /\ exists msg, driver_error "connection refused" = driver_error msg
       /\ (query_fault sample_broken = Some msg
           \/ scan_fault sample_broken = Some msg).
Proof.
  apply (GetLastRoute_error sample_plain
           {| handle := sample_broken; messages := []; route_queries := [] |}
           "" (driver_error "connection refused")
           {| handle := sample_broken; messages := [];
              route_queries := [1%N] |}).
  reflexivity.
Defined.

(* ===================================================================== *)
(** ** Facts about [NewMsg]                                               *)
(* ===================================================================== *)

Section NewMsgFacts.

Variables ObjectI ActorI TimeI PlaceI : Z.
Variable nlp_Pronouns : gmap string Z.
Variable Stem : string -> string.
Variable Classify : string -> StructuredInput * string * option error.

Lemma stems_of_map words : forall stems,
  stems_of Stem words stems
  = stems ++ map (fun w => Stem (strings.TrimRight w ",.?;:!-/")) words.
Proof.
  induction words as [|w words IH]; intros stems; simpl.
  - by rewrite app_nil_r.
  - rewrite IH. by rewrite <- app_assoc.
Qed.

(** X26.  Whatever happens in the resolution of pronouns, error or not,
    [NewMsg] returns a message with the sentence and the user it was
    given, the sentence fields of the sentence, one stem for each field
    of the sentence, and the pronoun set and the list lengths of the
    classifier's output. *)
Theorem NewMsg_message u cmd db :
  let m := fst (NewMsg ObjectI ActorI TimeI PlaceI nlp_Pronouns
                  Stem Classify u cmd db) in
  let si := fst (fst (Classify cmd)) in
  Sentence m = cmd
  /\ MsgUser m = u
  /\ MsgSentenceFields m = SentenceFields cmd
  /\ Stems m = map (fun w => Stem (strings.TrimRight w ",.?;:!-/"))
                 (strings.Fields cmd)
  /\ same_lengths si (MsgStructuredInput m)
  /\ Pronouns (MsgStructuredInput m) = Pronouns si.
Proof.
  unfold NewMsg. destruct (Classify cmd) as [[si annotated] err]. simpl.
  unfold bind, dt.addContext.
  match goal with |- context [dt.addContext_loop _ _ _ _ _ ?ws ?m0 db] =>
    pose proof (addContext_loop_frame ObjectI ActorI TimeI PlaceI
                  nlp_Pronouns ws m0 db) as Hf;
    pose proof (addContext_loop_lengths ObjectI ActorI TimeI PlaceI
                  nlp_Pronouns ws m0 db) as Hl;
    destruct (dt.addContext_loop ObjectI ActorI TimeI PlaceI nlp_Pronouns
                ws m0 db) as [[m1 e] db1]
  end.
  simpl in *. destruct Hf as (Hs & _ & Hu & Hst & _ & _ & Hsf & Hp).
  simpl in *. rewrite stems_of_map in Hst. done.
Qed.

End NewMsgFacts.
